(** * Proxy and TLS options read from the package manager configuration

    A shallow embedding of [src/bin/tools/fetchProxyOptions.ts] and the
    properties of [getProxyFetchOptions] and of its inner [readConfig].

    JavaScript strings are modelled as [string]; a character stands for a
    code unit in the range U+0000 to U+00FF.  The module-level Map
    [configCache] is a [gmap]; the child processes spawned by
    [child_process.execSync] are recorded in a log, so that statements
    about which commands were run can be made. *)

From Stdlib Require Import Ascii String List Arith NArith Bool Lia.
From stdpp Require Import gmap strings list fin_maps.

(* stdpp keeps [simpl] from unfolding the append of strings; the proofs below
   compute with it. *)
#[local] Arguments String.append !s1 s2 : simpl nomatch.

(** ** The string builtins used by the source *)

Module JS.

Definition LF : ascii := "010"%char.
Definition CR : ascii := "013"%char.
Definition DQ : ascii := "034"%char.

(** White space and line terminators removed by [String.prototype.trim]:
    TAB, LF, VT, FF, CR, SP and NBSP (the ones below U+0100). *)
Definition isTrimmable (c : ascii) : bool :=
  let n := nat_of_ascii c in
  ((9 <=? n) && (n <=? 13)) || (n =? 32) || (n =? 160).

(** What the dot of a regular expression without the s flag refuses. *)
Definition isLineTerminator (c : ascii) : bool :=
  Ascii.eqb c LF || Ascii.eqb c CR.

Definition isEmpty (s : string) : bool :=
  match s with EmptyString => true | String _ _ => false end.

Fixpoint trimStart (s : string) : string :=
  match s with
  | EmptyString => EmptyString
  | String c s' => if isTrimmable c then trimStart s' else s
  end.

Fixpoint trimEnd (s : string) : string :=
  match s with
  | EmptyString => EmptyString
  | String c s' =>
      let t := trimEnd s' in
      if isTrimmable c && isEmpty t then EmptyString else String c t
  end.

Definition trim (s : string) : string := trimEnd (trimStart s).

Fixpoint dropChars (n : nat) (s : string) : string :=
  match n, s with
  | S k, String _ s' => dropChars k s'
  | _, _ => s
  end.

(** [s.split(sep)] for a non-empty literal [sep]; with [keep] the
    separator is a capture group of the pattern and is spliced into the
    result after each piece.  Matches are found left to right and do not
    overlap: [skip] counts the characters of the last match still to be
    passed over. *)
Definition consHead (c : ascii) (toks : list string) : list string :=
  match toks with
  | t :: ts => String c t :: ts
  | [] => [String c EmptyString]
  end.

Fixpoint splitGo (sep : string) (keep : bool) (s : string) (skip : nat)
  : list string :=
  match s with
  | EmptyString => [EmptyString]
  | String c s' =>
      match skip with
      | S k => splitGo sep keep s' k
      | O =>
          if String.prefix sep s
          then EmptyString ::
               (if keep then [sep] else []) ++
               splitGo sep keep s' (String.length sep - 1)
          else consHead c (splitGo sep keep s' 0)
      end
  end.

Definition split (sep : string) (keep : bool) (s : string) : list string :=
  splitGo sep keep s 0.

(** [s.replace(new RegExp(pat, 'g'), rep)] for a literal [pat] without
    metacharacters and a replacement without dollar patterns. *)
Fixpoint replaceAllGo (pat rep : string) (s : string) (skip : nat) : string :=
  match s with
  | EmptyString => EmptyString
  | String c s' =>
      match skip with
      | S k => replaceAllGo pat rep s' k
      | O =>
          if String.prefix pat s
          then rep +:+ replaceAllGo pat rep s' (String.length pat - 1)
          else String c (replaceAllGo pat rep s' 0)
      end
  end.

Definition replaceAll (pat rep s : string) : string :=
  replaceAllGo pat rep s 0.

(** [s.replace(new RegExp('^' + pat), '')]: a leading [pat] is removed. *)
Definition removePrefix (pat s : string) : string :=
  if String.prefix pat s then dropChars (String.length pat) s else s.

(** [s.replace(/\r?\n/g, rep)]: every LF, together with a CR right
    before it, becomes [rep]; a CR not followed by LF stays. *)
Fixpoint replaceLineBreaks (rep : string) (s : string) : string :=
  match s with
  | EmptyString => EmptyString
  | String c s' =>
      if Ascii.eqb c LF then rep +:+ replaceLineBreaks rep s'
      else
        match s' with
        | String d s'' =>
            if Ascii.eqb c CR && Ascii.eqb d LF
            then rep +:+ replaceLineBreaks rep s''
            else String c (replaceLineBreaks rep s')
        | EmptyString => String c EmptyString
        end
  end.

(** The text [body] with [s = body ++ quote], when [body] has no line
    terminator: what the tail of the pattern, a greedy group of dots
    followed by a quote at the end of the input, accepts. *)
Fixpoint quotedBody (s : string) : option string :=
  match s with
  | EmptyString => None
  | String c EmptyString => if Ascii.eqb c DQ then Some EmptyString else None
  | String c s' =>
      if isLineTerminator c then None
      else option_map (String c) (quotedBody s')
  end.

(** The replacement of the source's line 68: a value that is a quote, any
    characters matched by the dot, and a closing quote at the end of the
    input becomes the text between the two quotes. *)
Definition removeSurroundingQuotes (value : string) : string :=
  match value with
  | String c rest =>
      if Ascii.eqb c DQ
      then match quotedBody rest with Some body => body | None => value end
      else value
  | EmptyString => value
  end.

(** [arr.slice(i, j)] for [0 <= i <= j]. *)
Definition slice {T} (arr : list T) (i j : nat) : list T :=
  take (j - i) (drop i arr).

End JS.

Import JS.

(** ** The world seen by the program *)

(** How a call into Node can complete. *)
Inductive completion (A : Type) : Type :=
  | Normal (a : A)
  | Throw.
Arguments Normal {A} a.
Arguments Throw {A}.

(** The collaborators of the resolver.  A resolved absolute path is the list
    of its segments below the file-system root, so [path.dirname] removes the
    last segment, [path.join(current, filename)] adds one, and the root is
    the empty list (its own parent).  [fs.existsSync] never throws.  A call
    that spreads an array into its arguments throws a RangeError when the
    array is longer than the engine and its stack allow: [spreadLimit] is
    the most elements such a call can take. *)
Record Env : Type := {
  resolve : string -> list string;                    (* path.resolve(cwd) *)
  existsSync : list string -> bool;                   (* fs.existsSync *)
  execSync : string -> string -> completion string;   (* command, cwd: stdout as utf8 *)
  readFileSync : string -> completion string;         (* path: content as utf8 *)
  spreadLimit : N                                     (* f(...arr) throws beyond it *)
}.

(** The process state: the module-level [configCache] and the commands that
    were handed to [execSync] so far, oldest first, each with its cwd. *)
Record State : Type := {
  configCache : gmap string (option string);
  execLog : list (string * string)
}.

Definition initState : State := {| configCache := ∅; execLog := [] |}.

Inductive outcome (A : Type) : Type :=
  | Returned (a : A) (s : State)
  | Thrown (s : State).
Arguments Returned {A} a s.
Arguments Thrown {A} s.

Definition M (A : Type) : Type := State -> outcome A.

Definition ret {A} (a : A) : M A := fun s => Returned a s.

Definition bind {A B} (m : M A) (f : A -> M B) : M B :=
  fun s => match m s with
           | Returned a s' => f a s'
           | Thrown s' => Thrown s'
           end.

(** [try { body } catch { handler }] *)
Definition tryCatch {A} (body handler : M A) : M A :=
  fun s => match body s with
           | Returned a s' => Returned a s'
           | Thrown s' => handler s'
           end.

Notation "x <- m ;; k" := (bind m (fun x => k))
  (at level 100, m at next level, right associativity).
Notation "m ;;; k" := (bind m (fun _ => k))
  (at level 100, right associativity).

Definition valueOf {A} (o : outcome (option A)) : option A :=
  match o with Returned a _ => a | Thrown _ => None end.

Definition stateOf {A} (o : outcome A) : State :=
  match o with Returned _ s => s | Thrown s => s end.

Definition cacheHas (key : string) : M bool :=
  fun s => Returned (bool_decide (is_Some (configCache s !! key))) s.

Definition cacheGet (key : string) : M (option string) :=
  fun s => Returned (default None (configCache s !! key)) s.

Definition cacheSet (key : string) (value : option string) : M unit :=
  fun s => Returned tt {| configCache := <[key := value]> (configCache s);
                          execLog := execLog s |}.

Definition runCommand (env : Env) (command cwd : string) : M string :=
  fun s =>
    let s' := {| configCache := configCache s;
                 execLog := execLog s ++ [(command, cwd)] |} in
    match execSync env command cwd with
    | Normal out => Returned out s'
    | Throw => Thrown s'
    end.

Definition readFile (env : Env) (file : string) : M string :=
  fun s => match readFileSync env file with
           | Normal content => Returned content s
           | Throw => Thrown s
           end.

(** ** The source, function by function *)

(** The type allows a single string for [noProxy] and an array for [cert];
    the function always builds an array for the one and a string or
    undefined for the other. *)
Record FetchOptionsLike : Type := {
  proxy : option string;
  noProxy : list string;
  strictSSL : bool;
  cert : option string;
  ca : option (list string)
}.

(** [findUpSync], from the directory whose segments are [rev up] (deepest
    first), so that the loop is a recursion on the remaining ancestors. *)
Fixpoint findUpFrom (env : Env) (filenames : list string) (up : list string)
  : option (list string) :=
  if existsb (fun filename => existsSync env (rev up ++ [filename])) filenames
  then Some (rev up)
  else match up with
       | [] => None                        (* reached filesystem root *)
       | _ :: parent => findUpFrom env filenames parent
       end.

Definition findUpSync (env : Env) (filenames : list string) (cwd : string)
  : option (list string) :=
  findUpFrom env filenames (rev (resolve env cwd)).

Definition detectYarn (env : Env) (cwd : string) : bool :=
  let yarnRoot := findUpSync env [".yarnrc.yml"; ".yarn"; ".pnp.cjs"] cwd in
  bool_decide (yarnRoot <> None).

Definition commandFor (isYarn : bool) (key : string) : string :=
  if isYarn then "yarn config get " +:+ key else "npm config get " +:+ key.

(** The sentinel test of lines 71 to 73. *)
Definition unlessSentinel (value : string) : option string :=
  if String.eqb value "undefined" || String.eqb value "null"
  then None else Some value.

Definition readConfig (env : Env) (isYarn : bool) (npmConfigGetCwd : string)
    (key : string) : M (option string) :=
  cached <- cacheHas key ;;
  if cached then cacheGet key
  else
    tryCatch
      (let command := commandFor isYarn key in
       out <- runCommand env command npmConfigGetCwd ;;
       let value := trim out in
       let value := if isYarn then removeSurroundingQuotes value else value in
       let value := unlessSentinel value in
       cacheSet key value ;;;
       ret value)
      (cacheSet key None ;;;
       ret None).

(** A JavaScript [a || b] on [string | undefined]: the right operand is
    evaluated only when the left one is falsy, that is undefined or the
    empty string. *)
Definition truthy (v : option string) : bool :=
  match v with
  | Some s => negb (isEmpty s)
  | None => false
  end.

Definition orElse (a b : M (option string)) : M (option string) :=
  v <- a ;;
  if truthy v then ret v else b.

Definition newLinePlaceholder : string := "NEW_LINE_PLACEHOLDER_xIsPsK23svt".

Definition endCertificate : string := "-----END CERTIFICATE-----".

(** [chunks]: the elements at the indices that are multiples of [size] are
    mapped to the slice starting there, the others to false, and [filter]
    keeps the slices.  With [size] zero the remainder is NaN and no index
    passes the test.  [chunkAt] is the callback of [map]. *)
Definition chunkAt {T} (arr : list T) (size i : nat) : option (list T) :=
  if negb (size =? 0) && (i mod size =? 0)
  then Some (slice arr i (i + size))
  else None.

Definition chunks {T} (arr : list T) (size : nat) : list (list T) :=
  omap id (imap (fun i _ => chunkAt arr size i) arr).

Definition backslashN : string := String "092"%char "n".

Definition escapeChunk (caChunk : list string) : string :=
  replaceAll newLinePlaceholder backslashN
    (removePrefix newLinePlaceholder
       (replaceLineBreaks newLinePlaceholder
          (String.concat EmptyString caChunk))).

(** The entries pushed onto [ca] for the content of a bundle file. *)
Definition bundleEntries (cafileContent : string) : list string :=
  map escapeChunk (chunks (split endCertificate true cafileContent) 2).

(** The immediately invoked function of lines 91 to 95. *)
Definition caFromConfig (caValue : option string) : list string :=
  match caValue with
  | Some v => if truthy caValue then [v] else []
  | None => []
  end.

(** [ca.push(...entries)]: one call with the entries as its arguments.  It
    throws, before anything is pushed, when there are more entries than a
    call can take. *)
Definition fitsSpread (env : Env) (entries : list string) : bool :=
  (N.of_nat (length entries) <=? spreadLimit env)%N.

Definition pushSpread (env : Env) (ca entries : list string) : M (list string) :=
  fun s => if fitsSpread env entries
           then Returned (ca ++ entries) s
           else Thrown s.

(** Lines 99 to 123: the entries of the bundle are pushed onto [ca] in one
    call, after the whole file was read and split, so a failure of the read
    or of the push leaves [ca] as it was. *)
Definition ingestBundle (env : Env) (cafile : option string) (ca : list string)
  : M (list string) :=
  match cafile with
  | Some file =>
      tryCatch
        (cafileContent <- readFile env file ;;
         pushSpread env ca (bundleEntries cafileContent))
        (ret ca)                                      (* Ignore errors *)
  | None => ret ca
  end.

Definition getProxyFetchOptions (env : Env) (npmConfigGetCwd : string)
  : M FetchOptionsLike :=
  let isYarn := detectYarn env npmConfigGetCwd in
  let readConfig := readConfig env isYarn npmConfigGetCwd in
  proxy <- orElse (readConfig "https-proxy") (readConfig "proxy") ;;
  noProxyValue <- orElse (readConfig "noproxy") (readConfig "no-proxy") ;;
  let noProxy := match noProxyValue with
                 | Some v => split "," false v
                 | None => []
                 end in
  strictValue <- readConfig "strict-ssl" ;;
  let strictSSL := bool_decide (strictValue = Some "true") in
  cert <- readConfig "cert" ;;
  caValue <- readConfig "ca" ;;
  let ca := caFromConfig caValue in
  cafile <- readConfig "cafile" ;;
  ca <- ingestBundle env cafile ca ;;
  ret {| proxy := proxy; noProxy := noProxy; strictSSL := strictSSL;
         cert := cert;
         ca := if length ca =? 0 then None else Some ca |}.

(** ** A process lifetime *)

(** Which log entries query a key: the command of either manager. *)
Definition queriesKey (key : string) (entry : string * string) : bool :=
  String.eqb (fst entry) (commandFor false key)
  || String.eqb (fst entry) (commandFor true key).

Definition queryCount (key : string) (log : list (string * string)) : nat :=
  length (filter (fun entry => queriesKey key entry = true) log).

(** The states a process goes through: the cache starts empty and changes
    only in [readConfig], whoever calls it and for whichever manager,
    directory and environment. *)
Inductive reachable : State -> Prop :=
  | reach_init : reachable initState
  | reach_read env isYarn cwd key s :
      reachable s ->
      reachable (stateOf (readConfig env isYarn cwd key s)).

(** [later s s']: the process gets from [s] to [s'] by further reads. *)
Inductive later (s : State) : State -> Prop :=
  | later_refl : later s s
  | later_read env isYarn cwd key s' :
      later s s' ->
      later s (stateOf (readConfig env isYarn cwd key s')).

(** The states of a process in which every command run so far has failed. *)
Inductive failedSoFar : State -> Prop :=
  | failed_init : failedSoFar initState
  | failed_read env isYarn cwd key s :
      failedSoFar s ->
      (forall command dir, execSync env command dir = Throw) ->
      failedSoFar (stateOf (readConfig env isYarn cwd key s)).

(** The output of the command after lines 62 to 69. *)
Definition normalize (isYarn : bool) (out : string) : string :=
  if isYarn then removeSurroundingQuotes (trim out) else trim out.

(** The keys [getProxyFetchOptions] reads, in order, when the values of the
    first proxy key and of the first no-proxy key are [p] and [n]. *)
Definition keysRead (p n : option string) : list string :=
  ["https-proxy"] ++ (if truthy p then [] else ["proxy"]) ++
  ["noproxy"] ++ (if truthy n then [] else ["no-proxy"]) ++
  ["strict-ssl"; "cert"; "ca"; "cafile"].

Definition readKeys (env : Env) (isYarn : bool) (cwd : string)
    (keys : list string) (s : State) : State :=
  foldl (fun s key => stateOf (readConfig env isYarn cwd key s)) s keys.

(** The assembled CA list: the single [ca] value of the configuration, then
    the entries of the bundle named by [cafile] when that file can be read
    and its entries can be pushed. *)
Definition caAssembled (env : Env) (caValue cafile : option string)
  : list string :=
  caFromConfig caValue ++
  match cafile with
  | Some file =>
      match readFileSync env file with
      | Normal cafileContent =>
          if fitsSpread env (bundleEntries cafileContent)
          then bundleEntries cafileContent else []
      | Throw => []
      end
  | None => []
  end.

(** ** Notions used in the statements *)

(** A key is cached exactly when its command has been run, and then it has
    been run once. *)
Definition cacheCounts (s : State) : Prop :=
  forall key, queryCount key (execLog s) =
              match configCache s !! key with Some _ => 1 | None => 0 end.

Definition newline : string := String LF EmptyString.

Definition quoted (s : string) : string := String DQ (s +:+ String DQ EmptyString).

Definition resultOf {A} (o : outcome A) : option A :=
  match o with Returned a _ => Some a | Thrown _ => None end.

(** The value the reader of a resolver invocation yields for [key]. *)
Definition configValue (env : Env) (cwd : string) (key : string) (s : State)
  : option string :=
  valueOf (readConfig env (detectYarn env cwd) cwd key s).

Definition failOpenDefaults : FetchOptionsLike :=
  {| proxy := None; noProxy := []; strictSSL := false; cert := None; ca := None |}.

Definition noSentinel (s : State) : Prop :=
  forall key v, configCache s !! key = Some (Some v) ->
                v <> "undefined" /\ v <> "null".

Fixpoint allTrimmable (s : string) : bool :=
  match s with
  | EmptyString => true
  | String c s' => isTrimmable c && allTrimmable s'
  end.

Definition headTrimmable (s : string) : bool :=
  match s with
  | EmptyString => false
  | String c _ => isTrimmable c
  end.

Fixpoint lastTrimmable (s : string) : bool :=
  match s with
  | EmptyString => false
  | String c EmptyString => isTrimmable c
  | String _ s' => lastTrimmable s'
  end.

Fixpoint hasLineTerminator (s : string) : bool :=
  match s with
  | EmptyString => false
  | String c s' => isLineTerminator c || hasLineTerminator s'
  end.

(** A certificate printed by Yarn between quotes, on two lines. *)
Definition twoLines : string := "MIIB" +:+ newline +:+ "AQAB".

(** The bodies, each followed by the end marker, then the rest. *)
Definition blocksThen (bodies : list string) (trailing : string) : string :=
  fold_right (fun body rest => body +:+ endCertificate +:+ rest) trailing bodies.

(** The tokens of such a text: body, marker, ..., body, marker, rest. *)
Definition tokensThen (bodies : list string) (trailing : string) : list string :=
  flat_map (fun body => [body; endCertificate]) bodies ++ [trailing].

Fixpoint hasChar (c : ascii) (s : string) : bool :=
  match s with
  | EmptyString => false
  | String d s' => Ascii.eqb d c || hasChar c s'
  end.

(** [occurs pat s]: [pat] is a substring of [s]. *)
Fixpoint occurs (pat s : string) : bool :=
  String.prefix pat s ||
  match s with
  | EmptyString => false
  | String _ s' => occurs pat s'
  end.

(** The marker without its last five dashes: a body or a rest that does not
    contain this text cannot take part in a match of the marker. *)
Definition certificateEndHead : string := "-----END CERTIFICATE".

Definition clean (s : string) : Prop := occurs certificateEndHead s = false.


(** The directory [dir] holds one of the files looked for: the test of the
    inner loop of [findUpSync]. *)
Definition hasMarker (env : Env) (filenames : list string) (dir : list string)
  : bool :=
  existsb (fun filename => existsSync env (dir ++ [filename])) filenames.

(** The directory [k] levels above [path]; from the root on it is the root. *)
Definition ancestor (k : nat) (path : list string) : list string :=
  take (length path - k) path.

(** The files and directories that tell a Yarn project. *)
Definition yarnMarkers : list string := [".yarnrc.yml"; ".yarn"; ".pnp.cjs"].

(** The chunks that start in the part [l] of [arr] that begins at index [k]. *)
Definition chunksFrom {T} (arr : list T) (size k : nat) (l : list T)
  : list (list T) :=
  omap id (imap (fun i _ => chunkAt arr size (k + i)) l).

(** The two line breaks the escaping knows: LF, and CR followed by LF. *)
Definition crlf : string := String CR (String LF EmptyString).







(** ** Concrete environments *)

Fixpoint assoc (key : string) (table : list (string * string)) : option string :=
  match table with
  | [] => None
  | (k, v) :: rest => if String.eqb k key then Some v else assoc key rest
  end.

(** A project in /work/app; with [yarn] the marker .yarnrc.yml lies in /work.
    Commands listed in [outputs] print the given text, all others fail;
    the files listed in [files] can be read, no others.  A call can spread
    up to 100000 elements. *)
Definition projectEnv (yarn : bool) (outputs files : list (string * string)) : Env :=
  {| resolve := fun _ => ["work"; "app"];
     existsSync := fun p => yarn && bool_decide (p = ["work"; ".yarnrc.yml"]);
     execSync := fun command _ =>
       match assoc command outputs with Some out => Normal out | None => Throw end;
     readFileSync := fun file =>
       match assoc file files with Some content => Normal content | None => Throw end;
     spreadLimit := 100000 |}.

(** No package manager is installed. *)
Definition bareEnv : Env := projectEnv false [] [].

(** An npm project behind a proxy, and a Yarn project with other settings. *)
Definition npmProxyEnv : Env :=
  projectEnv false
    [("npm config get https-proxy", "http://proxy:8080" +:+ newline);
     ("npm config get noproxy", "localhost,127.0.0.1" +:+ newline);
     ("npm config get strict-ssl", "true" +:+ newline);
     ("npm config get cert", "null" +:+ newline);
     ("npm config get ca", "null" +:+ newline);
     ("npm config get cafile", "null" +:+ newline)] [].

Definition yarnOtherEnv : Env :=
  projectEnv true
    [("yarn config get https-proxy", quoted "http://other:9090" +:+ newline);
     ("yarn config get strict-ssl", "false" +:+ newline)] [].

Definition yarnUnsetEnv : Env :=
  projectEnv true
    [("yarn config get cafile", " " +:+ quoted "undefined" +:+ newline)] [].

(** In npm the key noproxy is unset as the empty text, and https-proxy may be
    set to it. *)
Definition emptyFirstKeyEnv : Env :=
  projectEnv false
    [("npm config get https-proxy", newline);
     ("npm config get proxy", "http://fallback:3128" +:+ newline);
     ("npm config get noproxy", newline);
     ("npm config get no-proxy", "internal.corp" +:+ newline)] [].

Definition yarnQuotedEnv : Env :=
  projectEnv true [("yarn config get cert", " " +:+ quoted "foo" +:+ newline)] [].

Definition yarnTwoLinesEnv : Env :=
  projectEnv true [("yarn config get cert", quoted twoLines +:+ newline)] [].



(** An npm project with a ca value whose cafile does not exist. *)
Definition missingBundleEnv : Env :=
  projectEnv false
    [("npm config get ca", "ROOT" +:+ newline);
     ("npm config get cafile", "/etc/ssl/missing.pem" +:+ newline)] [].



(** ** The config reader *)

Section ReadConfig.

Variables (env : Env) (isYarn : bool) (cwd : string).

Lemma readConfig_cached key s v :
  configCache s !! key = Some v ->
  readConfig env isYarn cwd key s = Returned v s.
Proof.
  intros Hc. unfold readConfig, bind, cacheHas, cacheGet.
  rewrite bool_decide_eq_true_2 by (rewrite Hc; eauto).
  rewrite Hc. reflexivity.
Qed.

Lemma readConfig_fresh key s :
  configCache s !! key = None ->
  readConfig env isYarn cwd key s =
    let value := match execSync env (commandFor isYarn key) cwd with
                 | Normal out => unlessSentinel (normalize isYarn out)
                 | Throw => None
                 end in
    Returned value
      {| configCache := <[key := value]> (configCache s);
         execLog := execLog s ++ [(commandFor isYarn key, cwd)] |}.
Proof.
  intros Hc. unfold readConfig, bind, cacheHas, tryCatch, runCommand.
  rewrite bool_decide_eq_false_2 by (rewrite Hc; intros [? ?]; discriminate).
  unfold normalize, ret, cacheSet.
  destruct (execSync env (commandFor isYarn key) cwd); reflexivity.
Qed.

(** The reader never throws. *)
Lemma readConfig_returns key s :
  readConfig env isYarn cwd key s =
    Returned (valueOf (readConfig env isYarn cwd key s))
             (stateOf (readConfig env isYarn cwd key s)).
Proof.
  destruct (configCache s !! key) as [v|] eqn:Hc.
  - rewrite (readConfig_cached _ _ _ Hc). reflexivity.
  - rewrite (readConfig_fresh _ _ Hc). reflexivity.
Qed.

Lemma readConfig_cache key s :
  configCache (stateOf (readConfig env isYarn cwd key s)) =
    <[key := valueOf (readConfig env isYarn cwd key s)]> (configCache s).
Proof.
  destruct (configCache s !! key) as [v|] eqn:Hc.
  - rewrite (readConfig_cached _ _ _ Hc). simpl.
    symmetry. by apply insert_id.
  - rewrite (readConfig_fresh _ _ Hc). reflexivity.
Qed.

Lemma readConfig_log key s :
  execLog (stateOf (readConfig env isYarn cwd key s)) =
    execLog s ++
    match configCache s !! key with
    | Some _ => []
    | None => [(commandFor isYarn key, cwd)]
    end.
Proof.
  destruct (configCache s !! key) as [v|] eqn:Hc.
  - rewrite (readConfig_cached _ _ _ Hc). simpl. by rewrite app_nil_r.
  - rewrite (readConfig_fresh _ _ Hc). reflexivity.
Qed.

(** The value read for a key depends on the state only through the cache
    entry of that key. *)
Lemma readConfig_value_ext key s1 s2 :
  configCache s1 !! key = configCache s2 !! key ->
  valueOf (readConfig env isYarn cwd key s1) =
  valueOf (readConfig env isYarn cwd key s2).
Proof.
  intros Heq.
  destruct (configCache s1 !! key) as [v|] eqn:Hc.
  - rewrite (readConfig_cached _ s1 _ Hc).
    rewrite (readConfig_cached _ s2 v) by congruence. reflexivity.
  - rewrite (readConfig_fresh _ s1 Hc).
    rewrite (readConfig_fresh _ s2) by congruence. reflexivity.
Qed.

(** Reading any key leaves the value of every key as it was. *)
Lemma readConfig_value_after key key' s :
  valueOf (readConfig env isYarn cwd key
             (stateOf (readConfig env isYarn cwd key' s))) =
  valueOf (readConfig env isYarn cwd key s).
Proof.
  destruct (decide (key' = key)) as [->|Hne].
  - assert (Hc : configCache (stateOf (readConfig env isYarn cwd key s)) !! key
                 = Some (valueOf (readConfig env isYarn cwd key s))).
    { rewrite readConfig_cache. apply lookup_insert_eq. }
    rewrite (readConfig_cached _ _ _ Hc). reflexivity.
  - apply readConfig_value_ext.
    rewrite readConfig_cache. by apply lookup_insert_ne.
Qed.

Lemma readKeys_value keys : forall key s,
  valueOf (readConfig env isYarn cwd key (readKeys env isYarn cwd keys s)) =
  valueOf (readConfig env isYarn cwd key s).
Proof.
  induction keys as [|k keys IH]; intros key s; simpl; [reflexivity|].
  unfold readKeys in *. simpl. rewrite IH. apply readConfig_value_after.
Qed.

Lemma readKeys_app keys1 keys2 s :
  readKeys env isYarn cwd (keys1 ++ keys2) s =
  readKeys env isYarn cwd keys2 (readKeys env isYarn cwd keys1 s).
Proof. unfold readKeys. apply foldl_app. Qed.

Lemma readKeys_one key s :
  readKeys env isYarn cwd [key] s = stateOf (readConfig env isYarn cwd key s).
Proof. reflexivity. Qed.

Lemma readKeys_cache_other keys : forall key s,
  key ∉ keys ->
  configCache (readKeys env isYarn cwd keys s) !! key = configCache s !! key.
Proof.
  induction keys as [|k keys IH]; intros key s Hnotin; [reflexivity|].
  apply not_elem_of_cons in Hnotin as [Hne Hnotin].
  unfold readKeys in *. simpl. rewrite IH by assumption.
  rewrite readConfig_cache. by apply lookup_insert_ne.
Qed.

Lemma readKeys_cache_read keys : forall key s,
  key ∈ keys ->
  configCache (readKeys env isYarn cwd keys s) !! key =
    Some (valueOf (readConfig env isYarn cwd key s)).
Proof.
  induction keys as [|k keys IH]; intros key s Hin; [by apply elem_of_nil in Hin|].
  destruct (decide (key ∈ keys)) as [Hin'|Hnotin].
  - unfold readKeys in *. simpl. rewrite IH by assumption.
    by rewrite readConfig_value_after.
  - apply elem_of_cons in Hin as [->|Hin]; [|contradiction].
    change (readKeys env isYarn cwd (k :: keys) s)
      with (readKeys env isYarn cwd keys (stateOf (readConfig env isYarn cwd k s))).
    rewrite readKeys_cache_other by assumption.
    rewrite readConfig_cache. apply lookup_insert_eq.
Qed.

End ReadConfig.

(** ** The resolver as a function of the values read *)

Lemma bind_returned {A B} (m : M A) (f : A -> M B) s a s' :
  m s = Returned a s' -> bind m f s = f a s'.
Proof. intros H. unfold bind. by rewrite H. Qed.

Lemma ingestBundle_returns env caValue cafile s :
  ingestBundle env cafile (caFromConfig caValue) s =
    Returned (caAssembled env caValue cafile) s.
Proof.
  unfold ingestBundle, caAssembled, tryCatch, bind, readFile, pushSpread, ret.
  destruct cafile as [file|]; [|by rewrite app_nil_r].
  destruct (readFileSync env file) as [content|]; [|by rewrite app_nil_r].
  destruct (fitsSpread env (bundleEntries content)); [reflexivity|].
  by rewrite app_nil_r.
Qed.

Section Resolver.

Variables (env : Env) (cwd : string).

Let isYarn := detectYarn env cwd.
Let V (s : State) (key : string) := valueOf (readConfig env isYarn cwd key s).

Lemma orElse_returns key1 key2 s :
  orElse (readConfig env isYarn cwd key1) (readConfig env isYarn cwd key2) s =
    Returned (if truthy (V s key1) then V s key1 else V s key2)
      (readKeys env isYarn cwd
         (key1 :: if truthy (V s key1) then [] else [key2]) s).
Proof.
  unfold orElse, V.
  erewrite bind_returned by apply readConfig_returns.
  destruct (truthy _); [reflexivity|].
  rewrite readConfig_returns. unfold readKeys. simpl.
  by rewrite readConfig_value_after.
Qed.

(** The options returned and the state left behind, in terms of the values
    the reader yields for the eight keys at the state of the call. *)
Lemma getProxyFetchOptions_returns s :
  getProxyFetchOptions env cwd s =
    Returned
      {| proxy := if truthy (V s "https-proxy") then V s "https-proxy"
                  else V s "proxy";
         noProxy := match (if truthy (V s "noproxy") then V s "noproxy"
                           else V s "no-proxy") with
                    | Some v => split "," false v
                    | None => []
                    end;
         strictSSL := bool_decide (V s "strict-ssl" = Some "true");
         cert := V s "cert";
         ca := let l := caAssembled env (V s "ca") (V s "cafile") in
               if length l =? 0 then None else Some l |}
      (readKeys env isYarn cwd
         (keysRead (V s "https-proxy") (V s "noproxy")) s).
Proof.
  unfold getProxyFetchOptions. fold isYarn.
  erewrite bind_returned by apply orElse_returns.
  erewrite bind_returned by apply orElse_returns.
  do 4 erewrite bind_returned by apply readConfig_returns.
  erewrite bind_returned by apply ingestBundle_returns.
  unfold ret, V.
  rewrite <- !(readKeys_one env isYarn cwd).
  rewrite !readKeys_value.
  rewrite <- !readKeys_app.
  reflexivity.
Qed.

End Resolver.

(** ** Commands run and cache entries over a process lifetime *)

Lemma commandFor_inj y1 y2 key1 key2 :
  commandFor y1 key1 = commandFor y2 key2 -> key1 = key2.
Proof.
  destruct y1, y2; simpl; intros H; try discriminate H;
    by simplify_eq.
Qed.

Lemma queriesKey_commandFor key y key' cwd :
  queriesKey key (commandFor y key', cwd) = true <-> key = key'.
Proof.
  unfold queriesKey. rewrite orb_true_iff, !String.eqb_eq. simpl fst. split.
  - intros [H|H]; symmetry; eapply commandFor_inj; exact H.
  - intros ->. destruct y; auto.
Qed.

Lemma queryCount_app key log1 log2 :
  queryCount key (log1 ++ log2) = queryCount key log1 + queryCount key log2.
Proof. unfold queryCount. by rewrite filter_app, length_app. Qed.

Lemma queryCount_commandFor key y key' cwd :
  queryCount key [(commandFor y key', cwd)] = if decide (key = key') then 1 else 0.
Proof.
  unfold queryCount. rewrite filter_cons, filter_nil.
  pose proof (queriesKey_commandFor key y key' cwd) as Hq.
  destruct (decide (key = key')) as [Heq|Hne]; case_decide; simpl; tauto.
Qed.

Lemma readConfig_queryCount env isYarn cwd key s key' :
  queryCount key' (execLog (stateOf (readConfig env isYarn cwd key s))) =
    queryCount key' (execLog s) +
    match configCache s !! key with
    | Some _ => 0
    | None => if decide (key' = key) then 1 else 0
    end.
Proof.
  rewrite readConfig_log, queryCount_app.
  destruct (configCache s !! key); [reflexivity|].
  by rewrite queryCount_commandFor.
Qed.

Lemma reachable_cacheCounts s : reachable s -> cacheCounts s.
Proof.
  induction 1 as [|env isYarn cwd key s Hs IH]; intros key'.
  - reflexivity.
  - rewrite readConfig_queryCount, readConfig_cache, (IH key').
    destruct (decide (key' = key)) as [->|Hne].
    + rewrite lookup_insert_eq. destruct (configCache s !! key); lia.
    + rewrite lookup_insert_ne by congruence.
      destruct (configCache s !! key), (configCache s !! key'); lia.
Qed.

Lemma later_cache s s' key v :
  later s s' -> configCache s !! key = Some v -> configCache s' !! key = Some v.
Proof.
  induction 1 as [|env isYarn cwd key' s' Hl IH]; intros Hc; [assumption|].
  specialize (IH Hc). rewrite readConfig_cache.
  destruct (decide (key' = key)) as [->|Hne].
  - rewrite lookup_insert_eq. by rewrite (readConfig_cached _ _ _ _ _ _ IH).
  - by rewrite lookup_insert_ne.
Qed.

Lemma later_trans s1 s2 s3 : later s1 s2 -> later s2 s3 -> later s1 s3.
Proof. intros H12 H23. induction H23; [assumption|by constructor]. Qed.

Lemma later_reachable s s' : reachable s -> later s s' -> reachable s'.
Proof. intros Hs Hl. induction Hl; [assumption|by constructor]. Qed.

Lemma readKeys_later env isYarn cwd keys : forall s,
  later s (readKeys env isYarn cwd keys s).
Proof.
  induction keys as [|key keys IH]; intros s; [constructor|].
  eapply later_trans; [|apply IH]. repeat constructor.
Qed.

(** A resolver invocation is a sequence of reads. *)
Lemma resolver_later env cwd s :
  later s (stateOf (getProxyFetchOptions env cwd s)).
Proof. rewrite getProxyFetchOptions_returns. apply readKeys_later. Qed.

Lemma resolver_reachable env cwd s :
  reachable s -> reachable (stateOf (getProxyFetchOptions env cwd s)).
Proof. intros Hs. eapply later_reachable; [exact Hs|apply resolver_later]. Qed.

(** ** Totality and the fail-open defaults *)

Lemma configValue_all_fail env cwd key s :
  (forall command dir, execSync env command dir = Throw) ->
  (forall k v, configCache s !! k = Some v -> v = None) ->
  configValue env cwd key s = None.
Proof.
  intros Hfail Hcache. unfold configValue.
  destruct (configCache s !! key) as [v|] eqn:Hc.
  - rewrite (readConfig_cached _ _ _ _ _ _ Hc). simpl. eauto.
  - rewrite (readConfig_fresh _ _ _ _ _ Hc). simpl. by rewrite Hfail.
Qed.

(** While every command fails, the cache holds nothing but absences. *)
Lemma failedSoFar_absent s :
  failedSoFar s -> forall key v, configCache s !! key = Some v -> v = None.
Proof.
  induction 1 as [|env isYarn cwd key s Hs IH Hfail]; intros key' v.
  - simpl. by rewrite lookup_empty.
  - rewrite readConfig_cache.
    destruct (decide (key = key')) as [->|Hne].
    + rewrite lookup_insert_eq. intros [= <-].
      destruct (configCache s !! key') as [w|] eqn:Hc.
      * rewrite (readConfig_cached _ _ _ _ _ _ Hc). simpl. eauto.
      * rewrite (readConfig_fresh _ _ _ _ _ Hc). simpl. by rewrite Hfail.
    + rewrite lookup_insert_ne by assumption. apply IH.
Qed.

(** C2. [getProxyFetchOptions] always returns an options structure and never
    throws, whatever the commands and the file system do; and when every
    config-query command fails (so that whatever the cache holds is an
    absence, see [failedSoFar_absent]), the options are the defaults: no
    proxy, an empty no-proxy list, strictSSL false, no cert and no ca. *)
Theorem getProxyFetchOptions_total_fail_open (env : Env) (cwd : string) (s : State) :
  (exists r s', getProxyFetchOptions env cwd s = Returned r s') /\
  ((forall command dir, execSync env command dir = Throw) ->
   (forall key v, configCache s !! key = Some v -> v = None) ->
   exists s', getProxyFetchOptions env cwd s = Returned failOpenDefaults s').
Proof.
  split.
  - rewrite getProxyFetchOptions_returns. eauto.
  - intros Hfail Hcache. rewrite getProxyFetchOptions_returns.
    eexists. f_equal.
    pose proof (fun key => configValue_all_fail env cwd key s Hfail Hcache) as HV.
    unfold configValue in HV. rewrite !HV. reflexivity.
Qed.

Lemma getProxyFetchOptions_total_fail_open_witness :
  (exists r s', getProxyFetchOptions bareEnv "/work/app" initState = Returned r s') /\
  exists s', getProxyFetchOptions bareEnv "/work/app" initState
             = Returned failOpenDefaults s'.
Proof.
  destruct (getProxyFetchOptions_total_fail_open bareEnv "/work/app" initState)
    as [Htotal Hdefaults].
  split; [exact Htotal|].
  apply Hdefaults.
  - intros command dir. reflexivity.
  - intros key v. simpl. rewrite lookup_empty. discriminate.
Defined.

(** ** Memoization *)

(** C3. Over a process lifetime, that is in every state reached from the
    empty cache by [readConfig] calls of whatever resolver invocation,
    manager kind and working directory, the config-query command of a key
    has been run at most once; and once a key has been read, every later
    read of it, also by another invocation for another directory or manager,
    returns the value of that first read and leaves the state, and with it
    the log of commands run, as it is.  Resolver invocations only move the
    process along such reads. *)
Theorem readConfig_memoized (s : State) (key : string) :
  reachable s ->
  queryCount key (execLog s) <= 1 /\
  (forall env isYarn cwd s',
     later (stateOf (readConfig env isYarn cwd key s)) s' ->
     forall env' isYarn' cwd',
       readConfig env' isYarn' cwd' key s' =
         Returned (valueOf (readConfig env isYarn cwd key s)) s') /\
  (forall env cwd,
     later s (stateOf (getProxyFetchOptions env cwd s)) /\
     reachable (stateOf (getProxyFetchOptions env cwd s))).
Proof.
  intros Hs. split; [|split].
  - rewrite (reachable_cacheCounts s Hs key).
    destruct (configCache s !! key); lia.
  - intros env isYarn cwd s' Hl env' isYarn' cwd'.
    apply readConfig_cached. eapply later_cache; [exact Hl|].
    rewrite readConfig_cache. apply lookup_insert_eq.
  - intros env cwd. split; [apply resolver_later|by apply resolver_reachable].
Qed.

Lemma readConfig_memoized_witness :
  queryCount "https-proxy" (execLog initState) <= 1 /\
  readConfig yarnOtherEnv true "/work/other" "https-proxy"
    (stateOf (getProxyFetchOptions yarnOtherEnv "/work/other"
       (stateOf (readConfig npmProxyEnv false "/work/app" "https-proxy" initState))))
  = Returned (Some "http://proxy:8080")
      (stateOf (getProxyFetchOptions yarnOtherEnv "/work/other"
         (stateOf (readConfig npmProxyEnv false "/work/app" "https-proxy" initState)))).
Proof.
  destruct (readConfig_memoized initState "https-proxy" reach_init)
    as (Hcount & Hread & _).
  split; [exact Hcount|].
  apply (Hread npmProxyEnv false "/work/app" _
           (resolver_later yarnOtherEnv "/work/other" _)
           yarnOtherEnv true "/work/other").
Defined.

(** ** Sentinels *)

Lemma unlessSentinel_Some text v :
  unlessSentinel text = Some v <->
  text = v /\ v <> "undefined" /\ v <> "null".
Proof.
  unfold unlessSentinel.
  destruct (String.eqb_spec text "undefined") as [Hu|Hu],
           (String.eqb_spec text "null") as [Hn|Hn]; simpl;
    (split; intros H;
     [ try discriminate H; injection H as <-; auto
     | destruct H as (<- & ? & ?); congruence ]).
Qed.

Lemma unlessSentinel_None text :
  unlessSentinel text = None <-> text = "undefined" \/ text = "null".
Proof.
  unfold unlessSentinel.
  destruct (String.eqb_spec text "undefined") as [Hu|Hu],
           (String.eqb_spec text "null") as [Hn|Hn]; simpl;
    (split; intros H; [ try discriminate H; auto | ]);
    try reflexivity; destruct H; congruence.
Qed.

Lemma readConfig_noSentinel_value env isYarn cwd key s v :
  noSentinel s ->
  valueOf (readConfig env isYarn cwd key s) = Some v ->
  v <> "undefined" /\ v <> "null".
Proof.
  intros Hinv.
  destruct (configCache s !! key) as [w|] eqn:Hc.
  - rewrite (readConfig_cached _ _ _ _ _ _ Hc). simpl. intros ->. eauto.
  - rewrite (readConfig_fresh _ _ _ _ _ Hc). simpl.
    destruct (execSync env (commandFor isYarn key) cwd); [|discriminate].
    intros Hv. by apply unlessSentinel_Some in Hv as (_ & ? & ?).
Qed.

Lemma reachable_noSentinel s : reachable s -> noSentinel s.
Proof.
  induction 1 as [|env isYarn cwd key s Hs IH]; intros key' v.
  - simpl. by rewrite lookup_empty.
  - rewrite readConfig_cache.
    destruct (decide (key = key')) as [->|Hne].
    + rewrite lookup_insert_eq. intros [= Hv].
      eapply readConfig_noSentinel_value; eauto.
    + rewrite lookup_insert_ne by assumption. apply IH.
Qed.

(** C5. For both manager kinds: when the trimmed (and, for Yarn, unquoted)
    output of the command is exactly the text undefined or null, [readConfig]
    returns absent, and caches the absence; and in no state of a process
    does [readConfig] return one of these two texts as a value. *)
Theorem readConfig_sentinel_absent
    (env : Env) (isYarn : bool) (cwd key : string) (s : State) :
  reachable s ->
  (forall out,
     configCache s !! key = None ->
     execSync env (commandFor isYarn key) cwd = Normal out ->
     normalize isYarn out = "undefined" \/ normalize isYarn out = "null" ->
     valueOf (readConfig env isYarn cwd key s) = None /\
     configCache (stateOf (readConfig env isYarn cwd key s)) !! key = Some None) /\
  valueOf (readConfig env isYarn cwd key s) <> Some "undefined" /\
  valueOf (readConfig env isYarn cwd key s) <> Some "null".
Proof.
  intros Hs. split.
  - intros out Hc Hout Hsent.
    rewrite (readConfig_fresh _ _ _ _ _ Hc). simpl. rewrite Hout.
    apply unlessSentinel_None in Hsent. rewrite Hsent.
    split; [reflexivity|apply lookup_insert_eq].
  - split; intros Hv;
      destruct (readConfig_noSentinel_value _ _ _ _ _ _
                  (reachable_noSentinel s Hs) Hv); congruence.
Qed.

Lemma readConfig_sentinel_absent_witness :
  valueOf (readConfig yarnUnsetEnv true "/work/app" "cafile" initState) = None /\
  valueOf (readConfig yarnUnsetEnv true "/work/app" "cafile" initState)
    <> Some "undefined".
Proof.
  destruct (readConfig_sentinel_absent yarnUnsetEnv true "/work/app" "cafile"
              initState reach_init) as (Habsent & Hundefined & _).
  split; [|exact Hundefined].
  apply (Habsent (" " +:+ quoted "undefined" +:+ newline)).
  - reflexivity.
  - reflexivity.
  - left. reflexivity.
Defined.

(** ** Which keys an invocation reads *)

Lemma readKeys_queryCount env isYarn cwd key keys : forall s,
  queryCount key (execLog (readKeys env isYarn cwd keys s)) =
    queryCount key (execLog s) +
    (if decide (key ∈ keys)
     then match configCache s !! key with Some _ => 0 | None => 1 end
     else 0).
Proof.
  induction keys as [|k keys IH]; intros s.
  - destruct (decide (key ∈ [])) as [Hin|_]; [by apply elem_of_nil in Hin|].
    unfold readKeys. simpl. lia.
  - change (readKeys env isYarn cwd (k :: keys) s)
      with (readKeys env isYarn cwd keys (stateOf (readConfig env isYarn cwd k s))).
    rewrite IH, readConfig_queryCount, readConfig_cache.
    destruct (decide (key = k)) as [->|Hne].
    + rewrite lookup_insert_eq.
      rewrite (decide_True (P := k ∈ k :: keys)) by apply list_elem_of_here.
      destruct (decide (k ∈ keys)), (configCache s !! k); lia.
    + rewrite lookup_insert_ne by congruence.
      destruct (decide (key ∈ keys)) as [Hin|Hnotin].
      * rewrite (decide_True (P := key ∈ k :: keys)) by by apply list_elem_of_further.
        destruct (configCache s !! k); lia.
      * rewrite (decide_False (P := key ∈ k :: keys))
          by (rewrite elem_of_cons; tauto).
        destruct (configCache s !! k); lia.
Qed.

Lemma proxy_not_read n v :
  v <> EmptyString -> "proxy" ∉ keysRead (Some v) n.
Proof.
  intros Hv. unfold keysRead. destruct v as [|c v]; [done|]. simpl.
  destruct (truthy n); simpl; intros Hin;
    repeat (apply elem_of_cons in Hin as [Hin|Hin]; [discriminate Hin|]);
    by apply elem_of_nil in Hin.
Qed.

Lemma no_proxy_not_read p v :
  v <> EmptyString -> "no-proxy" ∉ keysRead p (Some v).
Proof.
  intros Hv. unfold keysRead. destruct v as [|c v]; [done|]. simpl.
  destruct (truthy p); simpl; intros Hin;
    repeat (apply elem_of_cons in Hin as [Hin|Hin]; [discriminate Hin|]);
    by apply elem_of_nil in Hin.
Qed.

Lemma proxy_read p n : truthy p = false -> "proxy" ∈ keysRead p n.
Proof.
  intros Hp. unfold keysRead. rewrite Hp. simpl.
  apply list_elem_of_further, list_elem_of_here.
Qed.

Lemma no_proxy_read p n : truthy n = false -> "no-proxy" ∈ keysRead p n.
Proof.
  intros Hn. unfold keysRead. rewrite Hn.
  destruct (truthy p); simpl; repeat (first [apply list_elem_of_here | apply list_elem_of_further]).
Qed.

(** ** The fallback between two keys *)

(** C4, amended.  For proxy (keys https-proxy, then proxy) and for noProxy
    (keys noproxy, then no-proxy): when the first key yields a present value
    that is not the empty string, that value is the result whatever the
    second key holds, and the second key is not read: its cache entry is as
    before and no command is run for it. *)
Theorem fallback_first_key_wins (env : Env) (cwd : string) (s : State) :
  exists r s',
    getProxyFetchOptions env cwd s = Returned r s' /\
    (forall v,
       configValue env cwd "https-proxy" s = Some v -> v <> EmptyString ->
       proxy r = Some v /\
       configCache s' !! "proxy" = configCache s !! "proxy" /\
       queryCount "proxy" (execLog s') = queryCount "proxy" (execLog s)) /\
    (forall v,
       configValue env cwd "noproxy" s = Some v -> v <> EmptyString ->
       noProxy r = split "," false v /\
       configCache s' !! "no-proxy" = configCache s !! "no-proxy" /\
       queryCount "no-proxy" (execLog s') = queryCount "no-proxy" (execLog s)).
Proof.
  rewrite getProxyFetchOptions_returns. unfold configValue.
  eexists _, _. split; [reflexivity|]. cbn [proxy noProxy]. split.
  - intros v Hv Hne. rewrite Hv.
    pose proof (proxy_not_read
      (valueOf (readConfig env (detectYarn env cwd) cwd "noproxy" s)) v Hne) as Hnot.
    destruct v as [|c v]; [done|]. split; [reflexivity|]. split.
    + by apply readKeys_cache_other.
    + rewrite readKeys_queryCount. rewrite decide_False by exact Hnot. lia.
  - intros v Hv Hne. rewrite Hv.
    pose proof (no_proxy_not_read
      (valueOf (readConfig env (detectYarn env cwd) cwd "https-proxy" s)) v Hne) as Hnot.
    destruct v as [|c v]; [done|]. split; [reflexivity|]. split.
    + by apply readKeys_cache_other.
    + rewrite readKeys_queryCount. rewrite decide_False by exact Hnot. lia.
Qed.

Lemma fallback_first_key_wins_witness :
  exists r s',
    getProxyFetchOptions npmProxyEnv "/work/app" initState = Returned r s' /\
    (proxy r = Some "http://proxy:8080" /\
     configCache s' !! "proxy" = None /\
     queryCount "proxy" (execLog s') = 0) /\
    (noProxy r = ["localhost"; "127.0.0.1"] /\
     configCache s' !! "no-proxy" = None /\
     queryCount "no-proxy" (execLog s') = 0).
Proof.
  destruct (fallback_first_key_wins npmProxyEnv "/work/app" initState)
    as (r & s' & Hrun & Hproxy & HnoProxy).
  exists r, s'. split; [exact Hrun|]. split.
  - apply (Hproxy "http://proxy:8080"); [reflexivity|discriminate].
  - apply (HnoProxy "localhost,127.0.0.1"); [reflexivity|discriminate].
Defined.

(** C4 as stated fails: the first keys yield a present value, the empty
    string, yet the result is the value of the second keys, whose commands
    are run. *)
Lemma fallback_present_empty_counterexample :
  configValue emptyFirstKeyEnv "/work/app" "https-proxy" initState = Some EmptyString /\
  configValue emptyFirstKeyEnv "/work/app" "noproxy" initState = Some EmptyString /\
  resultOf (getProxyFetchOptions emptyFirstKeyEnv "/work/app" initState) =
    Some {| proxy := Some "http://fallback:3128"; noProxy := ["internal.corp"];
            strictSSL := false; cert := None; ca := None |} /\
  execLog (stateOf (getProxyFetchOptions emptyFirstKeyEnv "/work/app" initState)) =
    [("npm config get https-proxy", "/work/app");
     ("npm config get proxy", "/work/app");
     ("npm config get noproxy", "/work/app");
     ("npm config get no-proxy", "/work/app");
     ("npm config get strict-ssl", "/work/app");
     ("npm config get cert", "/work/app");
     ("npm config get ca", "/work/app");
     ("npm config get cafile", "/work/app")].
Proof. repeat split; vm_compute; reflexivity. Qed.

(** ** strictSSL *)

(** C7. The strictSSL field is true exactly when the value read for the key
    strict-ssl is the string true.  For a key not yet cached this means that
    the command succeeded and its normalized output is the text true; any
    other value, such as 1 or True, an absent value and a failed command all
    give false. *)
Theorem strictSSL_iff_true (env : Env) (cwd : string) (s : State) :
  exists r s',
    getProxyFetchOptions env cwd s = Returned r s' /\
    (strictSSL r = true <-> configValue env cwd "strict-ssl" s = Some "true") /\
    (configCache s !! "strict-ssl" = None ->
     match execSync env (commandFor (detectYarn env cwd) "strict-ssl") cwd with
     | Normal out =>
         strictSSL r = true <-> normalize (detectYarn env cwd) out = "true"
     | Throw => strictSSL r = false
     end) /\
    (configValue env cwd "strict-ssl" s = Some "1" \/
     configValue env cwd "strict-ssl" s = Some "True" \/
     configValue env cwd "strict-ssl" s = None ->
     strictSSL r = false).
Proof.
  rewrite getProxyFetchOptions_returns. unfold configValue.
  eexists _, _. split; [reflexivity|]. cbn [strictSSL].
  split; [apply bool_decide_eq_true|]. split.
  - intros Hc. rewrite (readConfig_fresh _ _ _ _ _ Hc). simpl.
    destruct (execSync env (commandFor (detectYarn env cwd) "strict-ssl") cwd)
      as [out|]; [|reflexivity].
    rewrite bool_decide_eq_true. split.
    + intros Hv. by apply unlessSentinel_Some in Hv as (? & _).
    + intros ->. reflexivity.
  - intros Hv. apply bool_decide_eq_false.
    destruct Hv as [->| [->| ->]]; discriminate.
Qed.

(** ** The ca field *)

(** C8. The ca field is absent exactly when the assembled CA list, the ca
    value of the configuration followed by the entries of the bundle, is
    empty; a list that is not empty is returned as it is, and an empty
    sequence is never returned. *)
Theorem ca_absent_when_empty (env : Env) (cwd : string) (s : State) :
  exists r s' caList,
    getProxyFetchOptions env cwd s = Returned r s' /\
    ingestBundle env (configValue env cwd "cafile" s)
      (caFromConfig (configValue env cwd "ca" s)) s' = Returned caList s' /\
    (caList = [] -> ca r = None) /\
    (caList <> [] -> ca r = Some caList) /\
    ca r <> Some [].
Proof.
  rewrite getProxyFetchOptions_returns. unfold configValue.
  eexists _, _, _. split; [reflexivity|].
  split; [apply ingestBundle_returns|]. cbn [ca].
  destruct (caAssembled _ _ _) as [|entry entries]; simpl.
  - repeat split; congruence.
  - repeat split; congruence.
Qed.

(** ** Present but empty values *)

(** C10. A value that is present but empty counts as unset in the assembly.
    When https-proxy yields the empty string the key proxy is read all the
    same (running its command unless it is cached) and its value is the
    result, which is the empty string when proxy yields that too; the same
    for noproxy and no-proxy; and an empty ca value adds nothing to the CA
    list, which then holds the bundle entries alone. *)
Theorem empty_value_counts_as_unset (env : Env) (cwd : string) (s : State) :
  exists r s',
    getProxyFetchOptions env cwd s = Returned r s' /\
    (configValue env cwd "https-proxy" s = Some EmptyString ->
     proxy r = configValue env cwd "proxy" s /\
     configCache s' !! "proxy" = Some (configValue env cwd "proxy" s) /\
     queryCount "proxy" (execLog s') =
       queryCount "proxy" (execLog s) +
       match configCache s !! "proxy" with Some _ => 0 | None => 1 end) /\
    (configValue env cwd "noproxy" s = Some EmptyString ->
     noProxy r = match configValue env cwd "no-proxy" s with
                 | Some v => split "," false v
                 | None => []
                 end /\
     configCache s' !! "no-proxy" = Some (configValue env cwd "no-proxy" s) /\
     queryCount "no-proxy" (execLog s') =
       queryCount "no-proxy" (execLog s) +
       match configCache s !! "no-proxy" with Some _ => 0 | None => 1 end) /\
    (configValue env cwd "ca" s = Some EmptyString ->
     exists caList,
       ingestBundle env (configValue env cwd "cafile" s) [] s' = Returned caList s' /\
       ca r = if length caList =? 0 then None else Some caList) /\
    (configValue env cwd "https-proxy" s = Some EmptyString ->
     configValue env cwd "proxy" s = Some EmptyString ->
     proxy r = Some EmptyString).
Proof.
  rewrite getProxyFetchOptions_returns. unfold configValue.
  eexists _, _. split; [reflexivity|]. cbn [proxy noProxy ca].
  split; [|split; [|split]].
  - intros Hv. rewrite Hv. split; [reflexivity|]. split.
    + apply readKeys_cache_read. by apply proxy_read.
    + rewrite readKeys_queryCount.
      rewrite decide_True by by apply proxy_read. reflexivity.
  - intros Hv. rewrite Hv. split; [reflexivity|]. split.
    + apply readKeys_cache_read. by apply no_proxy_read.
    + rewrite readKeys_queryCount.
      rewrite decide_True by by apply no_proxy_read. reflexivity.
  - intros Hv. rewrite Hv. eexists. split; [|reflexivity].
    apply (ingestBundle_returns env (Some EmptyString)).
  - intros Hv Hv'. rewrite Hv, Hv'. reflexivity.
Qed.

Lemma empty_value_counts_as_unset_witness :
  exists r s',
    getProxyFetchOptions emptyFirstKeyEnv "/work/app" initState = Returned r s' /\
    (proxy r = Some "http://fallback:3128" /\
     configCache s' !! "proxy" = Some (Some "http://fallback:3128") /\
     queryCount "proxy" (execLog s') = 1) /\
    (noProxy r = ["internal.corp"] /\
     configCache s' !! "no-proxy" = Some (Some "internal.corp") /\
     queryCount "no-proxy" (execLog s') = 1).
Proof.
  destruct (empty_value_counts_as_unset emptyFirstKeyEnv "/work/app" initState)
    as (r & s' & Hrun & Hproxy & HnoProxy & _).
  exists r, s'. split; [exact Hrun|]. split.
  - apply Hproxy. reflexivity.
  - apply HnoProxy. reflexivity.
Defined.

(** ** Normalization of the command output *)

Lemma append_empty_r s : s +:+ EmptyString = s.
Proof. induction s as [|c s IH]; simpl; congruence. Qed.

Lemma append_assoc s1 s2 s3 : (s1 +:+ s2) +:+ s3 = s1 +:+ s2 +:+ s3.
Proof. induction s1 as [|c s1 IH]; simpl; congruence. Qed.

Lemma trimStart_spec s :
  exists pre, s = pre +:+ trimStart s /\ allTrimmable pre = true /\
              headTrimmable (trimStart s) = false.
Proof.
  induction s as [|c s (pre & Heq & Hpre & Hhead)]; simpl.
  - by exists EmptyString.
  - destruct (isTrimmable c) eqn:Hc.
    + exists (String c pre). simpl. rewrite Hc, Hpre, <- Heq. auto.
    + exists EmptyString. simpl. auto.
Qed.

Lemma trimEnd_spec s :
  exists post, s = trimEnd s +:+ post /\ allTrimmable post = true /\
               lastTrimmable (trimEnd s) = false.
Proof.
  induction s as [|c s (post & Heq & Hpost & Hlast)]; simpl.
  - by exists EmptyString.
  - destruct (isTrimmable c) eqn:Hc; simpl.
    + destruct (trimEnd s) as [|d t] eqn:Ht; simpl.
      * exists (String c post). simpl in *. rewrite Hc, Hpost, <- Heq. auto.
      * exists post. simpl in *. rewrite <- Heq. auto.
    + exists post. rewrite <- Heq. repeat split; [assumption|].
      simpl. destruct (trimEnd s); [assumption|exact Hlast].
Qed.

Lemma trimEnd_head s : headTrimmable s = false -> headTrimmable (trimEnd s) = false.
Proof.
  destruct s as [|c s]; simpl; [done|]. intros Hc. rewrite Hc. simpl. exact Hc.
Qed.

(** What [trim] does: the output is white space, the trimmed text, white
    space, and the trimmed text neither starts nor ends with white space. *)
Lemma trim_spec out :
  exists pre post,
    out = pre +:+ trim out +:+ post /\
    allTrimmable pre = true /\ allTrimmable post = true /\
    headTrimmable (trim out) = false /\ lastTrimmable (trim out) = false.
Proof.
  destruct (trimStart_spec out) as (pre & Heq & Hpre & Hhead).
  destruct (trimEnd_spec (trimStart out)) as (post & Heq' & Hpost & Hlast).
  exists pre, post. unfold trim. rewrite <- Heq', <- Heq.
  repeat split; auto using trimEnd_head.
Qed.

Lemma quotedBody_sound s : forall body,
  quotedBody s = Some body ->
  s = body +:+ String DQ EmptyString /\ hasLineTerminator body = false.
Proof.
  induction s as [|c s IH]; intros body; simpl; [discriminate|].
  destruct s as [|d s].
  - destruct (Ascii.eqb_spec c DQ) as [->|Hne]; [|discriminate].
    intros [= <-]. auto.
  - destruct (isLineTerminator c) eqn:Hc; [discriminate|].
    destruct (quotedBody (String d s)) as [b'|]; [|discriminate].
    intros [= <-]. destruct (IH b' eq_refl) as [Hs Hlt].
    simpl. rewrite <- Hs, Hc, Hlt. auto.
Qed.

Lemma quotedBody_complete body :
  hasLineTerminator body = false ->
  quotedBody (body +:+ String DQ EmptyString) = Some body.
Proof.
  induction body as [|c body IH]; simpl; [reflexivity|].
  intros Hlt. apply orb_false_iff in Hlt as [Hc Hlt].
  rewrite Hc, (IH Hlt). by destruct body.
Qed.

Lemma removeSurroundingQuotes_quoted body :
  hasLineTerminator body = false ->
  removeSurroundingQuotes (quoted body) = body.
Proof.
  intros Hlt. unfold removeSurroundingQuotes, quoted.
  by rewrite Ascii.eqb_refl, quotedBody_complete.
Qed.

Lemma removeSurroundingQuotes_other text :
  (forall body, text = quoted body -> hasLineTerminator body = true) ->
  removeSurroundingQuotes text = text.
Proof.
  intros Hother. unfold removeSurroundingQuotes.
  destruct text as [|c rest]; [reflexivity|].
  destruct (Ascii.eqb_spec c DQ) as [->|Hne]; [|reflexivity].
  destruct (quotedBody rest) as [body|] eqn:Hq; [|reflexivity].
  apply quotedBody_sound in Hq as [-> Hlt].
  specialize (Hother body eq_refl). congruence.
Qed.

(** The normalization as the code performs it.  For a key that is not
    cached and a command that succeeds, [readConfig] yields the normalized
    output (unless it is a sentinel).  Normalizing trims the white space
    around the output, for both manager kinds; for Yarn it then removes one
    pair of enclosing double quotes when both are there and no line
    terminator lies between them, and leaves the trimmed text alone
    otherwise; for npm nothing more is done.  So the quoted text foo becomes
    foo under Yarn and stays quoted under npm. *)
Lemma normalize_trims_and_unquotes
    (env : Env) (isYarn : bool) (cwd key : string) (s : State) (out : string) :
  configCache s !! key = None ->
  execSync env (commandFor isYarn key) cwd = Normal out ->
  valueOf (readConfig env isYarn cwd key s) = unlessSentinel (normalize isYarn out) /\
  (exists pre post,
     out = pre +:+ trim out +:+ post /\
     allTrimmable pre = true /\ allTrimmable post = true /\
     headTrimmable (trim out) = false /\ lastTrimmable (trim out) = false) /\
  (isYarn = false -> normalize isYarn out = trim out) /\
  (isYarn = true ->
   forall body, trim out = quoted body -> hasLineTerminator body = false ->
                normalize isYarn out = body) /\
  (isYarn = true ->
   (forall body, trim out = quoted body -> hasLineTerminator body = true) ->
   normalize isYarn out = trim out) /\
  normalize true (quoted "foo") = "foo" /\
  normalize true (quoted (quoted "foo")) = quoted "foo" /\
  normalize false (quoted "foo") = quoted "foo".
Proof.
  intros Hc Hout. split.
  { rewrite (readConfig_fresh _ _ _ _ _ Hc). simpl. by rewrite Hout. }
  split; [apply trim_spec|]. unfold normalize.
  split; [by intros ->|]. split; [|split].
  - intros -> body Hq Hlt. rewrite Hq. by apply removeSurroundingQuotes_quoted.
  - intros -> Hother. by apply removeSurroundingQuotes_other.
  - repeat split; reflexivity.
Qed.

Lemma normalize_trims_and_unquotes_witness :
  valueOf (readConfig yarnQuotedEnv true "/work/app" "cert" initState) = Some "foo".
Proof.
  destruct (normalize_trims_and_unquotes yarnQuotedEnv true "/work/app" "cert"
              initState (" " +:+ quoted "foo" +:+ newline) eq_refl eq_refl)
    as (Hvalue & _ & _ & Hyarn & _).
  rewrite Hvalue. rewrite (Hyarn eq_refl "foo" eq_refl eq_refl). reflexivity.
Defined.

(** C6.  The code misses what the claim, and the comment of line 68 on
    removing the surrounding quotes for Yarn, say.  Yarn prints a value on
    two lines between double quotes; after trimming both enclosing quotes
    are there, yet the value read keeps them, and so does the cert field of
    the options: the dot of the pattern does not match the line feed between
    the quotes.  A quoted value on one line does lose its quotes. *)
Theorem quotes_kept_around_line_break :
  trim (quoted twoLines +:+ newline) = quoted twoLines /\
  valueOf (readConfig yarnTwoLinesEnv true "/work/app" "cert" initState)
    = Some (quoted twoLines) /\
  resultOf (getProxyFetchOptions yarnTwoLinesEnv "/work/app" initState) =
    Some {| proxy := None; noProxy := []; strictSSL := false;
            cert := Some (quoted twoLines); ca := None |} /\
  quoted twoLines <> twoLines /\
  valueOf (readConfig yarnQuotedEnv true "/work/app" "cert" initState) = Some "foo".
Proof. repeat split; try (vm_compute; reflexivity). discriminate. Qed.

(** ** Splitting a CA bundle *)

Lemma prefix_dropChars p : forall s,
  String.prefix p s = true -> s = p +:+ dropChars (String.length p) s.
Proof.
  induction p as [|a p IH]; intros s; [done|].
  destruct s as [|b s]; simpl; [discriminate|].
  destruct (ascii_dec a b) as [->|]; [|discriminate].
  intros H. f_equal. by apply IH.
Qed.

Lemma splitGo_structure s : forall skip,
  exists bodies trailing,
    splitGo endCertificate true s skip = tokensThen bodies trailing /\
    dropChars skip s = blocksThen bodies trailing.
Proof.
  induction s as [|c s IH]; intros skip.
  - exists [], EmptyString. by destruct skip.
  - destruct skip as [|skip].
    + cbn [splitGo].
      destruct (String.prefix endCertificate (String c s)) eqn:Hp.
      * destruct (IH (String.length endCertificate - 1)) as (bodies & trailing & Ht & Hd).
        exists (EmptyString :: bodies), trailing. split.
        -- unfold tokensThen in *. simpl flat_map. rewrite Ht. reflexivity.
        -- apply prefix_dropChars in Hp. simpl dropChars at 1.
           rewrite Hp at 1. simpl. rewrite <- Hd. reflexivity.
      * destruct (IH 0) as (bodies & trailing & Ht & Hd).
        simpl in Hd. rewrite Ht.
        destruct bodies as [|body bodies].
        -- exists [], (String c trailing). simpl in *. by rewrite Hd.
        -- exists (String c body :: bodies), trailing. simpl in *. by rewrite Hd.
    + destruct (IH skip) as (bodies & trailing & Ht & Hd).
      exists bodies, trailing. by split.
Qed.

Lemma slice_width {T} (arr : list T) i n : slice arr i (i + n) = take n (drop i arr).
Proof. unfold slice. f_equal. lia. Qed.

Lemma chunkAt_shift {T} (x y : T) (arr : list T) i :
  chunkAt (x :: y :: arr) 2 (S (S i)) = chunkAt arr 2 i.
Proof.
  unfold chunkAt.
  replace (S (S i) mod 2) with (i mod 2)
    by (replace (S (S i)) with (i + 1 * 2) by lia; by rewrite Nat.Div0.mod_add).
  by rewrite !slice_width.
Qed.

Lemma chunks_pair {T} (x y : T) (arr : list T) :
  chunks (x :: y :: arr) 2 = [x; y] :: chunks arr 2.
Proof.
  unfold chunks. rewrite !imap_cons. cbv beta.
  replace (imap ((fun i _ => chunkAt (x :: y :: arr) 2 i) ∘ S ∘ S) arr)
    with (imap (fun i (_ : T) => chunkAt arr 2 i) arr)
    by (apply imap_ext; intros i z _; symmetry; apply chunkAt_shift).
  reflexivity.
Qed.

Lemma chunks_tokensThen bodies trailing :
  chunks (tokensThen bodies trailing) 2 =
    map (fun body => [body; endCertificate]) bodies ++ [[trailing]].
Proof.
  unfold tokensThen. induction bodies as [|body bodies IH]; [reflexivity|].
  simpl. rewrite chunks_pair. by rewrite IH.
Qed.

(** Every bundle is some blocks and a rest, and its entries are one per
    block and one more for the rest. *)
Lemma bundleEntries_structure content :
  exists bodies trailing,
    content = blocksThen bodies trailing /\
    split endCertificate true content = tokensThen bodies trailing /\
    bundleEntries content =
      map (fun body => escapeChunk [body; endCertificate]) bodies ++
      [escapeChunk [trailing]].
Proof.
  destruct (splitGo_structure content 0) as (bodies & trailing & Ht & Hd).
  exists bodies, trailing. split; [by destruct content|]. split; [exact Ht|].
  unfold bundleEntries, split. rewrite Ht, chunks_tokensThen.
  by rewrite map_app, map_map.
Qed.

(** ** Escaping the line breaks of an entry *)


(** Induction on strings two characters at a time, as [replaceLineBreaks]
    recurses. *)
Lemma string_pair_ind (P : string -> Prop) :
  P EmptyString ->
  (forall c, P (String c EmptyString)) ->
  (forall c d s, P s -> P (String d s) -> P (String c (String d s))) ->
  forall s, P s.
Proof.
  intros H0 H1 H2 s.
  assert (P s /\ forall c, P (String c s)) as [Hs _]; [|exact Hs].
  induction s as [|d s [IHs IHc]]; split; auto.
Qed.

Lemma replaceLineBreaks_pair rep c d s :
  replaceLineBreaks rep (String c (String d s)) =
    if Ascii.eqb c LF then rep +:+ replaceLineBreaks rep (String d s)
    else if Ascii.eqb c CR && Ascii.eqb d LF then rep +:+ replaceLineBreaks rep s
         else String c (replaceLineBreaks rep (String d s)).
Proof. reflexivity. Qed.






Lemma replaceLineBreaks_before_marker rep body :
  replaceLineBreaks rep (body +:+ endCertificate) =
    replaceLineBreaks rep body +:+ endCertificate.
Proof.
  induction body as [|c|c d body IHs IHd] using string_pair_ind.
  - reflexivity.
  - simpl. destruct (Ascii.eqb c LF); [|by rewrite andb_false_r].
    by rewrite append_empty_r.
  - change (String c (String d body) +:+ endCertificate)
      with (String c (String d (body +:+ endCertificate))).
    rewrite !replaceLineBreaks_pair.
    change (String d (body +:+ endCertificate))
      with (String d body +:+ endCertificate).
    rewrite IHs, IHd.
    destruct (Ascii.eqb c LF); [by rewrite append_assoc|].
    destruct (Ascii.eqb c CR && Ascii.eqb d LF); [by rewrite append_assoc|].
    reflexivity.
Qed.

Lemma prefix_before_other pat c t :
  hasChar c pat = false ->
  forall x, String.prefix pat (x +:+ String c t) = String.prefix pat x.
Proof.
  induction pat as [|a pat IH]; intros Hc x.
  - by destruct x.
  - simpl in Hc. apply orb_false_iff in Hc as [Hca Hc].
    apply Ascii.eqb_neq in Hca. destruct x as [|b x]; simpl.
    + destruct (ascii_dec a c); [congruence|reflexivity].
    + destruct (ascii_dec a b); [by apply IH|reflexivity].
Qed.

Lemma prefix_length pat : forall s,
  String.prefix pat s = true -> String.length pat <= String.length s.
Proof.
  induction pat as [|a pat IH]; intros [|b s]; simpl; try lia; try discriminate.
  destruct (ascii_dec a b); [|discriminate]. intros H%IH. lia.
Qed.

Lemma dropChars_app n : forall x t,
  n <= String.length x -> dropChars n (x +:+ t) = dropChars n x +:+ t.
Proof.
  induction n as [|n IH]; intros [|c x] t; simpl; try reflexivity; try lia.
  intros H. apply IH. lia.
Qed.

Lemma removePrefix_before_marker x :
  removePrefix newLinePlaceholder (x +:+ endCertificate) =
    removePrefix newLinePlaceholder x +:+ endCertificate.
Proof.
  unfold removePrefix, endCertificate.
  rewrite prefix_before_other by reflexivity.
  destruct (String.prefix newLinePlaceholder x) eqn:Hp; [|reflexivity].
  apply dropChars_app. by apply prefix_length.
Qed.

Lemma replaceAllGo_before_marker x : forall skip,
  skip <= String.length x ->
  replaceAllGo newLinePlaceholder backslashN (x +:+ endCertificate) skip =
    replaceAllGo newLinePlaceholder backslashN x skip +:+ endCertificate.
Proof.
  induction x as [|c x IH]; intros skip Hskip.
  - simpl in Hskip. replace skip with 0 by lia. reflexivity.
  - change (String c x +:+ endCertificate) with (String c (x +:+ endCertificate)).
    cbn [replaceAllGo]. destruct skip as [|skip].
    + change (String c (x +:+ endCertificate)) with (String c x +:+ endCertificate).
      unfold endCertificate at 1. rewrite prefix_before_other by reflexivity.
      destruct (String.prefix newLinePlaceholder (String c x)) eqn:Hp.
      * apply prefix_length in Hp. simpl in Hp.
        rewrite IH by (simpl; lia). by rewrite append_assoc.
      * rewrite IH by lia. reflexivity.
    + apply IH. simpl in Hskip. lia.
Qed.

(** The entry of a complete block ends in the marker. *)
Lemma escapeChunk_block body :
  escapeChunk [body; endCertificate] = escapeChunk [body] +:+ endCertificate.
Proof.
  unfold escapeChunk. cbn [String.concat].
  change (body +:+ EmptyString +:+ endCertificate) with (body +:+ endCertificate).
  rewrite replaceLineBreaks_before_marker, removePrefix_before_marker.
  apply replaceAllGo_before_marker. lia.
Qed.

(** ** Bundles whose blocks are found as they are written *)

Lemma prefix_cons a p b s :
  String.prefix (String a p) (String b s) =
    if ascii_dec a b then String.prefix p s else false.
Proof. reflexivity. Qed.

Lemma prefix_app_l a b : forall x,
  String.prefix (a +:+ b) x = true -> String.prefix a x = true.
Proof.
  induction a as [|c a IH]; intros x; [by destruct x|].
  destruct x as [|d x]; [done|].
  change (String c a +:+ b) with (String c (a +:+ b)). rewrite !prefix_cons.
  destruct (ascii_dec c d); [apply IH|done].
Qed.

Lemma prefix_app_self p : forall rest, String.prefix p (p +:+ rest) = true.
Proof.
  induction p as [|c p IH]; intros rest; [by destruct rest|].
  change (String c p +:+ rest) with (String c (p +:+ rest)). rewrite prefix_cons.
  destruct (ascii_dec c c); [apply IH|done].
Qed.

Lemma prefix_app_long p : forall x y,
  String.length p <= String.length x ->
  String.prefix p (x +:+ y) = String.prefix p x.
Proof.
  induction p as [|c p IH]; intros x y Hlen.
  - by destruct x, y.
  - destruct x as [|d x]; [simpl in Hlen; lia|].
    change (String d x +:+ y) with (String d (x +:+ y)). rewrite !prefix_cons.
    destruct (ascii_dec c d); [|reflexivity]. apply IH. simpl in Hlen. lia.
Qed.

Lemma marker_needs_head x :
  String.prefix certificateEndHead x = false ->
  String.prefix endCertificate x = false.
Proof.
  intros Hhead. destruct (String.prefix endCertificate x) eqn:Hp; [|reflexivity].
  change endCertificate with (certificateEndHead +:+ "-----") in Hp.
  apply prefix_app_l in Hp. congruence.
Qed.

(** One more character of a text that is compared with the marker. *)
Ltac next_char :=
  rewrite prefix_cons;
  match goal with
  | |- context [ascii_dec ?a ?b] =>
      let Heq := fresh "Heq" in
      destruct (ascii_dec a b) as [Heq|];
      [ try discriminate Heq; try subst; try clear Heq | reflexivity ]
  end.

(** A match of the marker cannot start in a text that does not begin with
    the head of the marker and end in the marker that follows the text. *)
Lemma no_straddle t rest :
  t <> EmptyString ->
  String.prefix certificateEndHead t = false ->
  String.prefix endCertificate (t +:+ endCertificate +:+ rest) = false.
Proof.
  intros Hne Hhead. destruct t as [|c t]; [done|]. clear Hne.
  do 19 (destruct t as [|? t];
         [ clear Hhead; unfold endCertificate; cbn [String.append];
           repeat next_char | ]).
  apply marker_needs_head. rewrite prefix_app_long by (simpl; lia).
  exact Hhead.
Qed.

Lemma splitGo_skip sep keep x : forall rest,
  splitGo sep keep (x +:+ rest) (String.length x) = splitGo sep keep rest 0.
Proof.
  induction x as [|c x IH]; intros rest; [by destruct rest|].
  apply IH.
Qed.

Lemma occurs_cons pat c s :
  occurs pat (String c s) = String.prefix pat (String c s) || occurs pat s.
Proof. reflexivity. Qed.

Lemma splitGo_clean_block body : forall rest,
  clean body ->
  splitGo endCertificate true (body +:+ endCertificate +:+ rest) 0 =
    body :: endCertificate :: splitGo endCertificate true rest 0.
Proof.
  unfold clean. induction body as [|c body IH]; intros rest Hclean.
  - change (EmptyString +:+ endCertificate +:+ rest)
      with (String "-" ("----END CERTIFICATE-----" +:+ rest)).
    cbn [splitGo].
    change (String "-" ("----END CERTIFICATE-----" +:+ rest))
      with (endCertificate +:+ rest).
    rewrite prefix_app_self.
    change (String.length endCertificate - 1)
      with (String.length "----END CERTIFICATE-----").
    by rewrite splitGo_skip.
  - rewrite occurs_cons in Hclean. apply orb_false_iff in Hclean as [Hhead Hclean].
    pose proof (no_straddle (String c body) rest ltac:(done) Hhead) as Hno.
    change (String c body +:+ endCertificate +:+ rest)
      with (String c (body +:+ endCertificate +:+ rest)) in *.
    cbn [splitGo]. rewrite Hno, IH by assumption. reflexivity.
Qed.

Lemma splitGo_clean_rest trailing :
  clean trailing -> splitGo endCertificate true trailing 0 = [trailing].
Proof.
  unfold clean. induction trailing as [|c t IH]; intros Hclean; [reflexivity|].
  rewrite occurs_cons in Hclean. apply orb_false_iff in Hclean as [Hhead Hclean].
  cbn [splitGo]. rewrite (marker_needs_head _ Hhead), IH by assumption.
  reflexivity.
Qed.

Lemma split_blocksThen bodies trailing :
  Forall clean bodies -> clean trailing ->
  split endCertificate true (blocksThen bodies trailing) = tokensThen bodies trailing.
Proof.
  intros Hbodies Htrailing. unfold split, tokensThen.
  induction Hbodies as [|body bodies Hbody Hbodies IH].
  - by apply splitGo_clean_rest.
  - change (blocksThen (body :: bodies) trailing)
      with (body +:+ endCertificate +:+ blocksThen bodies trailing).
    rewrite splitGo_clean_block by assumption. by rewrite IH.
Qed.

(** The entries of a bundle written as blocks and a rest: the escaped
    blocks, each ending in the marker, and the escaped rest. *)
Lemma bundleEntries_blocksThen bodies trailing :
  Forall clean bodies -> clean trailing ->
  bundleEntries (blocksThen bodies trailing) =
    map (fun body => escapeChunk [body] +:+ endCertificate) bodies ++
    [escapeChunk [trailing]].
Proof.
  intros Hbodies Htrailing. unfold bundleEntries.
  rewrite split_blocksThen, chunks_tokensThen by assumption.
  rewrite map_app, map_map. f_equal.
  apply map_ext. intros body. apply escapeChunk_block.
Qed.

(** ** The entries of a bundle *)

(** *** The split takes the leftmost matches *)









(** *** The push *)


(** More entries than one call can take: the push throws, the catch
    swallows it, and [ca] stays as it was although the file was read. *)
Lemma ingestBundle_overflow env file content caList s :
  readFileSync env file = Normal content ->
  fitsSpread env (bundleEntries content) = false ->
  ingestBundle env (Some file) caList s = Returned caList s.
Proof.
  intros Hread Hfits.
  unfold ingestBundle, tryCatch, bind, readFile, pushSpread, ret.
  by rewrite Hread, Hfits.
Qed.




(** *** A bundle that is read *)





Lemma strictSSL_iff_true_witness :
  exists r s',
    getProxyFetchOptions npmProxyEnv "/work/app" initState = Returned r s' /\
    strictSSL r = true.
Proof.
  destruct (strictSSL_iff_true npmProxyEnv "/work/app" initState)
    as (r & s' & Hrun & Hiff & _).
  exists r, s'. split; [exact Hrun|]. apply Hiff. reflexivity.
Defined.

Lemma ca_absent_when_empty_witness :
  exists r s',
    getProxyFetchOptions bareEnv "/work/app" initState = Returned r s' /\
    ca r = None.
Proof.
  destruct (ca_absent_when_empty bareEnv "/work/app" initState)
    as (r & s' & caList & Hrun & Hingest & Hempty & _).
  exists r, s'. split; [exact Hrun|]. apply Hempty.
  vm_compute in Hingest. congruence.
Defined.

(** ** The scenarios of the specification *)

Example end_to_end_npm :
  resultOf (getProxyFetchOptions npmProxyEnv "/work/app" initState) =
    Some {| proxy := Some "http://proxy:8080";
            noProxy := ["localhost"; "127.0.0.1"];
            strictSSL := true; cert := None; ca := None |}.
Proof. vm_compute. reflexivity. Qed.

Example detection_by_marker :
  detectYarn yarnOtherEnv "/work/other" = true /\
  detectYarn npmProxyEnv "/work/app" = false.
Proof. split; reflexivity. Qed.

(** ** Detection of the package manager *)

Lemma findUpFrom_spec env filenames up :
  match findUpFrom env filenames up with
  | Some dir =>
      exists k, k <= length up /\ dir = rev (drop k up) /\
                hasMarker env filenames dir = true /\
                forall j, j < k -> hasMarker env filenames (rev (drop j up)) = false
  | None =>
      forall j, j <= length up -> hasMarker env filenames (rev (drop j up)) = false
  end.
Proof.
  induction up as [|c parent IH].
  - cbn [findUpFrom]. fold (hasMarker env filenames (rev [])).
    destruct (hasMarker env filenames (rev [])) eqn:Hm.
    + exists 0. repeat split; auto. intros j Hj. lia.
    + intros j Hj. by destruct j.
  - cbn [findUpFrom]. fold (hasMarker env filenames (rev (c :: parent))).
    destruct (hasMarker env filenames (rev (c :: parent))) eqn:Hm.
    + exists 0. repeat split; auto; [simpl; lia|]. intros j Hj. lia.
    + destruct (findUpFrom env filenames parent) as [dir|].
      * destruct IH as (k & Hk & Hdir & Hmark & Hnear).
        exists (S k). repeat split; auto; [simpl; lia|].
        intros [|j] Hj; [exact Hm|]. apply Hnear. lia.
      * intros [|j] Hj; [exact Hm|]. apply IH. simpl in Hj. lia.
Qed.

Lemma ancestor_rev k path : rev (drop k (rev path)) = ancestor k path.
Proof. unfold ancestor. by rewrite skipn_rev, rev_involutive. Qed.

Lemma ancestor_beyond_root j path :
  length path <= j -> ancestor j path = ancestor (length path) path.
Proof.
  intros Hj. unfold ancestor.
  by replace (length path - j) with (length path - length path) by lia.
Qed.

Lemma findUpSync_ancestors (env : Env) (filenames : list string) (cwd : string) :
  match findUpSync env filenames cwd with
  | Some dir =>
      exists k, k <= length (resolve env cwd) /\
                dir = ancestor k (resolve env cwd) /\
                hasMarker env filenames dir = true /\
                forall j, j < k ->
                  hasMarker env filenames (ancestor j (resolve env cwd)) = false
  | None =>
      forall j, hasMarker env filenames (ancestor j (resolve env cwd)) = false
  end.
Proof.
  unfold findUpSync.
  pose proof (findUpFrom_spec env filenames (rev (resolve env cwd))) as Hspec.
  destruct (findUpFrom env filenames (rev (resolve env cwd))) as [dir|].
  - destruct Hspec as (k & Hk & Hdir & Hmark & Hnear).
    exists k. rewrite length_rev in Hk. rewrite ancestor_rev in Hdir.
    repeat split; auto.
    intros j Hj. rewrite <- ancestor_rev. by apply Hnear.
  - intros j. destruct (decide (j <= length (resolve env cwd))) as [Hj|Hj].
    + rewrite <- ancestor_rev. apply Hspec. by rewrite length_rev.
    + rewrite ancestor_beyond_root by lia.
      rewrite <- ancestor_rev. apply Hspec. by rewrite length_rev.
Qed.

(** X1. [findUpSync] returns the nearest directory, going up from the
    resolved working directory to the root, that holds one of the files;
    and it returns undefined only when no directory on the way, the root
    included, holds any of them. *)
Theorem findUpSync_nearest (env : Env) (filenames : list string) (cwd : string) :
  match findUpSync env filenames cwd with
  | Some dir =>
      exists k, k <= length (resolve env cwd) /\
                dir = ancestor k (resolve env cwd) /\
                hasMarker env filenames dir = true /\
                forall j, j < k ->
                  hasMarker env filenames (ancestor j (resolve env cwd)) = false
  | None =>
      forall j, hasMarker env filenames (ancestor j (resolve env cwd)) = false
  end.
Proof. apply findUpSync_ancestors. Qed.

(** X2. A project is taken for a Yarn project exactly when the working
    directory or one of its ancestors, up to the root, holds one of
    .yarnrc.yml, .yarn and .pnp.cjs. *)
Theorem detectYarn_iff_marker (env : Env) (cwd : string) :
  detectYarn env cwd = true <->
  exists k, k <= length (resolve env cwd) /\
            hasMarker env yarnMarkers (ancestor k (resolve env cwd)) = true.
Proof.
  unfold detectYarn. fold yarnMarkers.
  pose proof (findUpSync_ancestors env yarnMarkers cwd) as Hspec.
  destruct (findUpSync env yarnMarkers cwd) as [dir|]; split.
  - intros _. destruct Hspec as (k & Hk & -> & Hmark & _). eauto.
  - intros _. by apply bool_decide_eq_true.
  - intros H. apply bool_decide_eq_true in H. done.
  - intros (k & _ & Hmark). by rewrite Hspec in Hmark.
Qed.

(** ** The no-proxy list *)

Lemma prefix_empty s : String.prefix EmptyString s = true.
Proof. by destruct s. Qed.

Lemma splitComma_cons c s :
  split "," false (String c s) =
    if Ascii.eqb c "," then EmptyString :: split "," false s
    else consHead c (split "," false s).
Proof.
  unfold split. cbn [splitGo]. rewrite prefix_cons, prefix_empty.
  destruct (ascii_dec "," c) as [<-|Hne]; [reflexivity|].
  rewrite (proj2 (Ascii.eqb_neq c ",")) by congruence. reflexivity.
Qed.

Lemma splitComma_nonempty s : split "," false s <> [].
Proof.
  destruct s as [|c s]; [done|]. rewrite splitComma_cons.
  destruct (Ascii.eqb c ","); [done|]. by destruct (split "," false s).
Qed.

Lemma concat_more sep x y l :
  String.concat sep (x :: y :: l) = x +:+ sep +:+ String.concat sep (y :: l).
Proof. reflexivity. Qed.

Lemma splitComma_join s : String.concat "," (split "," false s) = s.
Proof.
  induction s as [|c s IH]; [reflexivity|]. rewrite splitComma_cons.
  pose proof (splitComma_nonempty s) as Hne.
  destruct (split "," false s) as [|t ts]; [done|].
  destruct (Ascii.eqb_spec c ",") as [->|Hc].
  - rewrite concat_more, IH. reflexivity.
  - unfold consHead. destruct ts as [|t' ts].
    + simpl in *. by rewrite IH.
    + rewrite concat_more in *. rewrite <- IH. reflexivity.
Qed.

Lemma splitComma_no_comma s :
  Forall (fun entry => hasChar "," entry = false) (split "," false s).
Proof.
  induction s as [|c s IH]; [by repeat constructor|]. rewrite splitComma_cons.
  destruct (Ascii.eqb c ",") eqn:Hc; [by constructor|].
  destruct (split "," false s) as [|t ts]; simpl.
  - repeat constructor. simpl. by rewrite Hc.
  - inversion IH; subst. constructor; [|assumption]. simpl. by rewrite Hc.
Qed.

(** X3. The noProxy field is the empty list only when neither key yields a
    usable value; otherwise it is the value cut at its commas: at least one
    entry (the empty string alone for an empty value), no entry holding a
    comma, and the entries joined by commas giving the value back. *)
Theorem noProxy_split_join (env : Env) (cwd : string) (s : State) :
  exists r s',
    getProxyFetchOptions env cwd s = Returned r s' /\
    match (if truthy (configValue env cwd "noproxy" s)
           then configValue env cwd "noproxy" s
           else configValue env cwd "no-proxy" s) with
    | None => noProxy r = []
    | Some v =>
        noProxy r <> [] /\
        Forall (fun entry => hasChar "," entry = false) (noProxy r) /\
        String.concat "," (noProxy r) = v
    end.
Proof.
  rewrite getProxyFetchOptions_returns. unfold configValue.
  eexists _, _. split; [reflexivity|]. cbn [noProxy].
  destruct (if truthy _ then _ else _) as [v|]; [|reflexivity].
  auto using splitComma_nonempty, splitComma_no_comma, splitComma_join.
Qed.

(** ** Chunks of any size *)

Lemma omap_imap_none {A B} (g : nat -> A -> option B) (l : list A) :
  (forall i x, l !! i = Some x -> g i x = None) -> omap id (imap g l) = [].
Proof.
  revert g. induction l as [|a l IH]; intros g Hg; [reflexivity|].
  rewrite imap_cons. cbn [omap list_omap]. rewrite (Hg 0 a eq_refl). cbn [id].
  apply IH. intros i x Hx. apply (Hg (S i) x Hx).
Qed.

Lemma chunkAt_multiple {T} (arr : list T) size k :
  0 < size -> k mod size = 0 ->
  chunkAt arr size k = Some (take size (drop k arr)).
Proof.
  intros Hsize Hk. unfold chunkAt. rewrite Hk.
  destruct size; [lia|]. simpl. by rewrite slice_width.
Qed.

Lemma chunkAt_between {T} (arr : list T) size k i :
  k mod size = 0 -> 0 < i < size -> chunkAt arr size (k + i) = None.
Proof.
  intros Hk Hi. unfold chunkAt.
  rewrite Nat.Div0.add_mod, Hk, Nat.add_0_l, Nat.Div0.mod_mod.
  rewrite Nat.mod_small by lia.
  destruct i; [lia|]. by rewrite andb_false_r.
Qed.

Lemma multiple_next size k : k mod size = 0 -> (k + size) mod size = 0.
Proof.
  intros Hk.
  by rewrite Nat.Div0.add_mod, Hk, Nat.Div0.mod_same, Nat.add_0_l,
     Nat.Div0.mod_0_l.
Qed.

Lemma chunksFrom_cons {T} (arr : list T) size k x l :
  0 < size -> k mod size = 0 -> drop k arr = x :: l ->
  chunksFrom arr size k (x :: l) =
    take size (x :: l) :: chunksFrom arr size (k + size) (drop size (x :: l)).
Proof.
  intros Hsize Hk Hdrop. unfold chunksFrom.
  rewrite imap_cons. cbn [omap list_omap].
  rewrite Nat.add_0_r, (chunkAt_multiple arr size k Hsize Hk), Hdrop. cbn [id].
  f_equal.
  destruct size as [|size']; [lia|]. cbn [take drop].
  rewrite <- (take_drop size' l) at 1.
  rewrite imap_app, omap_app.
  rewrite omap_imap_none; cycle 1.
  { intros i y Hy. apply lookup_lt_Some in Hy. rewrite length_take in Hy.
    unfold compose. apply chunkAt_between; [exact Hk|lia]. }
  cbn [app]. f_equal. apply imap_ext. intros i y Hy.
  apply lookup_lt_Some in Hy. rewrite length_drop in Hy.
  unfold compose. rewrite length_take. f_equal. lia.
Qed.

Lemma chunksFrom_lookup {T} (arr : list T) size i : forall k l,
  0 < size -> k mod size = 0 -> drop k arr = l ->
  chunksFrom arr size k l !! i =
    if decide (i * size < length l)
    then Some (take size (drop (i * size) l)) else None.
Proof.
  induction i as [|i IH]; intros k l Hsize Hk Hdrop.
  - destruct l as [|x l].
    + rewrite decide_False by (simpl; lia). reflexivity.
    + rewrite (chunksFrom_cons arr size k x l Hsize Hk Hdrop).
      rewrite decide_True by (simpl; lia). reflexivity.
  - destruct l as [|x l].
    + rewrite decide_False by (simpl; lia). reflexivity.
    + rewrite (chunksFrom_cons arr size k x l Hsize Hk Hdrop).
      transitivity (chunksFrom arr size (k + size) (drop size (x :: l)) !! i);
        [reflexivity|].
      rewrite (IH (k + size) (drop size (x :: l)) Hsize (multiple_next _ _ Hk))
        by (by rewrite <- Hdrop, drop_drop).
      rewrite length_drop, drop_drop.
      replace (size + i * size) with (S i * size) by lia.
      destruct (decide (i * size < length (x :: l) - size)),
               (decide (S i * size < length (x :: l))); try reflexivity; lia.
Qed.

Lemma chunksFrom_concat {T} (arr : list T) size n : forall k l,
  0 < size -> length l <= n -> k mod size = 0 -> drop k arr = l ->
  concat (chunksFrom arr size k l) = l.
Proof.
  induction n as [|n IH]; intros k l Hsize Hlen Hk Hdrop.
  - destruct l; [reflexivity|simpl in Hlen; lia].
  - destruct l as [|x l]; [reflexivity|].
    rewrite (chunksFrom_cons arr size k x l Hsize Hk Hdrop). cbn [concat].
    rewrite (IH (k + size) (drop size (x :: l)) Hsize).
    + apply take_drop.
    + rewrite length_drop. simpl in *. lia.
    + by apply multiple_next.
    + by rewrite <- Hdrop, drop_drop.
Qed.

Lemma chunks_lookup_concat {T} (arr : list T) size :
  0 < size ->
  (forall i, chunks arr size !! i =
             if decide (i * size < length arr)
             then Some (take size (drop (i * size) arr)) else None) /\
  concat (chunks arr size) = arr.
Proof.
  intros Hsize. split.
  - intros i.
    apply (chunksFrom_lookup arr size i 0 arr Hsize);
      [apply Nat.Div0.mod_0_l|reflexivity].
  - apply (chunksFrom_concat arr size (length arr) 0 arr Hsize);
      [lia|apply Nat.Div0.mod_0_l|reflexivity].
Qed.

(** X4. [chunks] cuts an array into consecutive slices of [size] elements:
    chunk [i] is the slice of up to [size] elements that starts at index
    [i * size], there are no further chunks, and the chunks put end to end
    are the array.  With [size] zero there is no chunk at all. *)
Theorem chunks_consecutive_slices {T : Type} (arr : list T) (size : nat) :
  (0 < size ->
   (forall i, chunks arr size !! i =
              if decide (i * size < length arr)
              then Some (take size (drop (i * size) arr)) else None) /\
   concat (chunks arr size) = arr) /\
  chunks arr 0 = [].
Proof.
  split; [apply chunks_lookup_concat|].
  unfold chunks. by apply omap_imap_none.
Qed.

Lemma chunks_consecutive_slices_witness :
  chunks ["a"; "b"; "c"; "d"; "e"] 3 !! 1 = Some ["d"; "e"] /\
  concat (chunks ["a"; "b"; "c"; "d"; "e"] 3) = ["a"; "b"; "c"; "d"; "e"].
Proof.
  destruct (chunks_consecutive_slices ["a"; "b"; "c"; "d"; "e"] 3) as [Hpos _].
  destruct (Hpos ltac:(lia)) as [Hlookup Hconcat].
  split; [exact (Hlookup 1)|exact Hconcat].
Defined.

(** ** Nothing of a bundle is lost before the escaping *)

Lemma concat_cons_more sep x l :
  l <> [] -> String.concat sep (x :: l) = x +:+ sep +:+ String.concat sep l.
Proof. intros Hl. by destruct l. Qed.

Lemma join_blocks bodies trailing :
  String.concat EmptyString
    (map (String.concat EmptyString)
       (map (fun body => [body; endCertificate]) bodies ++ [[trailing]])) =
  blocksThen bodies trailing.
Proof.
  induction bodies as [|body bodies IH]; [reflexivity|].
  cbn [map app blocksThen fold_right]. rewrite concat_cons_more.
  - fold (blocksThen bodies trailing). rewrite <- IH. cbn [map app].
    cbn [String.concat]. by rewrite append_assoc.
  - rewrite map_app. by destruct (map _ (map _ bodies)).
Qed.

Lemma length_tokensThen bodies trailing :
  length (tokensThen bodies trailing) = 2 * length bodies + 1.
Proof.
  unfold tokensThen. rewrite length_app. cbn [length].
  induction bodies as [|body bodies IH]; [reflexivity|].
  cbn [flat_map app length]. lia.
Qed.

(** X5. The split and the chunking lose nothing: the split yields an odd
    number of tokens, there is one chunk more than there are markers found,
    and the chunks, each joined as the source joins it, put end to end are
    the content of the file. *)
Theorem bundle_chunks_lossless (content : string) :
  exists n,
    length (split endCertificate true content) = 2 * n + 1 /\
    length (chunks (split endCertificate true content) 2) = n + 1 /\
    String.concat EmptyString
      (map (String.concat EmptyString)
         (chunks (split endCertificate true content) 2)) = content.
Proof.
  destruct (bundleEntries_structure content) as (bodies & trailing & Hc & Ht & _).
  exists (length bodies). rewrite Ht, chunks_tokensThen. split; [|split].
  - apply length_tokensThen.
  - rewrite length_app, length_map. reflexivity.
  - rewrite join_blocks. by symmetry.
Qed.

(** ** A second invocation *)

Lemma readKeys_all_cached env isYarn cwd keys : forall s,
  (forall key, key ∈ keys -> is_Some (configCache s !! key)) ->
  readKeys env isYarn cwd keys s = s.
Proof.
  induction keys as [|key keys IH]; intros s Hcached; [reflexivity|].
  change (readKeys env isYarn cwd (key :: keys) s)
    with (readKeys env isYarn cwd keys (stateOf (readConfig env isYarn cwd key s))).
  destruct (Hcached key (list_elem_of_here _ _)) as [v Hv].
  rewrite (readConfig_cached _ _ _ _ _ _ Hv). simpl.
  apply IH. intros key' Hin. apply Hcached. by apply list_elem_of_further.
Qed.

Lemma keysRead_always p n key :
  key ∈ ["https-proxy"; "noproxy"; "strict-ssl"; "cert"; "ca"; "cafile"] ->
  key ∈ keysRead p n.
Proof.
  unfold keysRead. intros Hin.
  destruct (truthy p), (truthy n); simpl;
    rewrite !elem_of_cons, ?elem_of_nil in *; tauto.
Qed.

(** The value a second reader yields for a key the first invocation read. *)
Lemma value_after_invocation env cwd env' isYarn' cwd' key s keys :
  key ∈ keys ->
  valueOf (readConfig env' isYarn' cwd' key
             (readKeys env (detectYarn env cwd) cwd keys s)) =
  valueOf (readConfig env (detectYarn env cwd) cwd key s).
Proof.
  intros Hin.
  by rewrite (readConfig_cached _ _ _ _ _ _
                (readKeys_cache_read env _ cwd keys key s Hin)).
Qed.

(** X6. After one invocation a second one, for whatever directory, manager
    and command outputs, runs no command and changes nothing: it returns the
    proxy, noProxy, strictSSL and cert of the first, and a ca assembled from
    the cached ca and cafile values with the bundle file read anew.  When
    the files read the same and a call can spread as many elements, the two
    results are equal. *)
Theorem second_invocation_reuses_cache
    (env : Env) (cwd : string) (env' : Env) (cwd' : string) (s : State) :
  exists r s1 r',
    getProxyFetchOptions env cwd s = Returned r s1 /\
    getProxyFetchOptions env' cwd' s1 = Returned r' s1 /\
    proxy r' = proxy r /\ noProxy r' = noProxy r /\
    strictSSL r' = strictSSL r /\ cert r' = cert r /\
    (exists caList,
       ingestBundle env' (configValue env cwd "cafile" s)
         (caFromConfig (configValue env cwd "ca" s)) s1 = Returned caList s1 /\
       ca r' = if length caList =? 0 then None else Some caList) /\
    ((forall file, readFileSync env' file = readFileSync env file) ->
     spreadLimit env' = spreadLimit env -> r' = r).
Proof.
  rewrite getProxyFetchOptions_returns.
  set (V := fun key => valueOf (readConfig env (detectYarn env cwd) cwd key s)).
  set (keys := keysRead (V "https-proxy") (V "noproxy")).
  set (s1 := readKeys env (detectYarn env cwd) cwd keys s).
  assert (Halways : forall key,
            key ∈ ["https-proxy"; "noproxy"; "strict-ssl"; "cert"; "ca"; "cafile"] ->
            valueOf (readConfig env' (detectYarn env' cwd') cwd' key s1) = V key).
  { intros key Hin. apply value_after_invocation. by apply keysRead_always. }
  assert (Hproxy : (if truthy (V "https-proxy") then V "https-proxy"
                    else valueOf (readConfig env' (detectYarn env' cwd') cwd' "proxy" s1))
                   = (if truthy (V "https-proxy") then V "https-proxy" else V "proxy")).
  { destruct (truthy (V "https-proxy")) eqn:Hp; [reflexivity|].
    apply value_after_invocation. by apply proxy_read. }
  assert (HnoProxy : (if truthy (V "noproxy") then V "noproxy"
                      else valueOf (readConfig env' (detectYarn env' cwd') cwd' "no-proxy" s1))
                     = (if truthy (V "noproxy") then V "noproxy" else V "no-proxy")).
  { destruct (truthy (V "noproxy")) eqn:Hn; [reflexivity|].
    apply value_after_invocation. by apply no_proxy_read. }
  assert (Hstate : readKeys env' (detectYarn env' cwd') cwd' keys s1 = s1).
  { apply readKeys_all_cached. intros key Hin. unfold s1.
    rewrite (readKeys_cache_read env _ cwd keys key s Hin). eauto. }
  eexists _, s1, _. split; [reflexivity|].
  rewrite (getProxyFetchOptions_returns env' cwd' s1).
  rewrite (Halways "https-proxy"), (Halways "noproxy"), (Halways "strict-ssl"),
    (Halways "cert"), (Halways "ca"), (Halways "cafile")
    by (rewrite !elem_of_cons; tauto).
  rewrite Hproxy, HnoProxy.
  change (keysRead (V "https-proxy") (V "noproxy")) with keys. rewrite Hstate.
  split; [reflexivity|].
  cbn [proxy noProxy strictSSL cert ca]. repeat (split; [reflexivity|]).
  split.
  - eexists. split; [apply ingestBundle_returns|reflexivity].
  - intros Hfiles Hlimit.
    assert (Hca : caAssembled env' (V "ca") (V "cafile")
                  = caAssembled env (V "ca") (V "cafile")).
    { unfold caAssembled, fitsSpread.
      destruct (V "cafile"); [by rewrite Hfiles, Hlimit|reflexivity]. }
    rewrite Hca. reflexivity.
Qed.

Lemma second_invocation_reuses_cache_witness :
  exists r s1 r',
    getProxyFetchOptions npmProxyEnv "/work/app" initState = Returned r s1 /\
    getProxyFetchOptions yarnOtherEnv "/work/other" s1 = Returned r' s1 /\
    r' = r.
Proof.
  destruct (second_invocation_reuses_cache npmProxyEnv "/work/app"
              yarnOtherEnv "/work/other" initState)
    as (r & s1 & r' & Hfirst & Hsecond & _ & _ & _ & _ & _ & Hsame).
  exists r, s1, r'. split; [exact Hfirst|]. split; [exact Hsecond|].
  apply Hsame; [intros file|]; reflexivity.
Defined.

(** ** The cache and the log of commands *)

Lemma cached_after_read env isYarn cwd key s key' :
  is_Some (configCache s !! key') ->
  is_Some (configCache (stateOf (readConfig env isYarn cwd key s)) !! key').
Proof.
  intros Hc. rewrite readConfig_cache.
  destruct (decide (key = key')) as [->|Hne].
  - rewrite lookup_insert_eq. eauto.
  - by rewrite lookup_insert_ne.
Qed.

(** X7. In every state of a process the cache mirrors the commands run: a
    key is cached exactly when its command was run, and then it was run
    once; every command run is the config query, of one of the two
    managers, of a cached key; and there are as many commands run as keys
    cached. *)
Theorem cache_mirrors_commands (s : State) :
  reachable s ->
  (forall key,
     (is_Some (configCache s !! key) <-> queryCount key (execLog s) = 1) /\
     (configCache s !! key = None <-> queryCount key (execLog s) = 0)) /\
  Forall (fun entry => exists isYarn key,
                         entry.1 = commandFor isYarn key /\
                         is_Some (configCache s !! key)) (execLog s) /\
  length (execLog s) = size (configCache s).
Proof.
  intros Hs. split; [|split].
  - intros key. rewrite (reachable_cacheCounts s Hs key).
    destruct (configCache s !! key) as [v|]; split; split; eauto; try lia;
      try discriminate. by intros [? ?].
  - induction Hs as [|env isYarn cwd key s Hs IH]; [constructor|].
    rewrite readConfig_log. apply Forall_app. split.
    + eapply Forall_impl; [exact IH|].
      intros entry (y & k & Hentry & Hc). exists y, k.
      split; [exact Hentry|]. by apply cached_after_read.
    + destruct (configCache s !! key) eqn:Hc; constructor; [|constructor].
      exists isYarn, key. split; [reflexivity|].
      rewrite readConfig_cache, lookup_insert_eq. eauto.
  - induction Hs as [|env isYarn cwd key s Hs IH]; [reflexivity|].
    rewrite readConfig_log, readConfig_cache, length_app, IH.
    destruct (configCache s !! key) as [v|] eqn:Hc.
    + rewrite (readConfig_cached _ _ _ _ _ _ Hc). simpl.
      rewrite insert_id by exact Hc. lia.
    + rewrite map_size_insert_None by exact Hc. simpl. lia.
Qed.

Lemma cache_mirrors_commands_witness :
  length (execLog (stateOf (getProxyFetchOptions npmProxyEnv "/work/app" initState)))
  = size (configCache
            (stateOf (getProxyFetchOptions npmProxyEnv "/work/app" initState))).
Proof.
  destruct (cache_mirrors_commands
              (stateOf (getProxyFetchOptions npmProxyEnv "/work/app" initState))
              (resolver_reachable npmProxyEnv "/work/app" initState reach_init))
    as (_ & _ & Hsize).
  exact Hsize.
Defined.

Lemma filter_uncached_after env isYarn cwd key s (keys : list string) :
  key ∉ keys ->
  filter (fun k => configCache (stateOf (readConfig env isYarn cwd key s)) !! k = None) keys
  = filter (fun k => configCache s !! k = None) keys.
Proof.
  induction keys as [|k keys IH]; intros Hnotin; [reflexivity|].
  apply not_elem_of_cons in Hnotin as [Hne Hnotin].
  rewrite !filter_cons, IH by assumption.
  rewrite readConfig_cache, lookup_insert_ne by assumption. reflexivity.
Qed.

Lemma readKeys_log env isYarn cwd keys : forall s,
  NoDup keys ->
  execLog (readKeys env isYarn cwd keys s) =
    execLog s ++
    map (fun key => (commandFor isYarn key, cwd))
      (filter (fun key => configCache s !! key = None) keys).
Proof.
  induction keys as [|key keys IH]; intros s Hnodup.
  - unfold readKeys. simpl. by rewrite app_nil_r.
  - apply NoDup_cons in Hnodup as [Hnotin Hnodup].
    change (readKeys env isYarn cwd (key :: keys) s)
      with (readKeys env isYarn cwd keys (stateOf (readConfig env isYarn cwd key s))).
    rewrite IH by assumption. rewrite filter_uncached_after by assumption.
    rewrite readConfig_log, filter_cons, <- app_assoc. f_equal.
    destruct (configCache s !! key) as [v|] eqn:Hc.
    + rewrite decide_False by discriminate. reflexivity.
    + rewrite decide_True by reflexivity. reflexivity.
Qed.

Lemma keysRead_NoDup p n : NoDup (keysRead p n).
Proof.
  unfold keysRead.
  destruct (truthy p), (truthy n); apply (bool_decide_unpack _); by vm_compute.
Qed.

Lemma keysRead_length p n : length (keysRead p n) <= 8.
Proof. unfold keysRead. destruct (truthy p), (truthy n); simpl; lia. Qed.

(** X8. The commands one invocation runs are the config queries of the
    detected manager, in the working directory given, for the keys it reads
    that are not cached, in the order of reading, each once: at most eight.
    It runs nothing else. *)
Theorem invocation_commands (env : Env) (cwd : string) (s : State) :
  exists r s',
    getProxyFetchOptions env cwd s = Returned r s' /\
    execLog s' =
      execLog s ++
      map (fun key => (commandFor (detectYarn env cwd) key, cwd))
        (filter (fun key => configCache s !! key = None)
           (keysRead (configValue env cwd "https-proxy" s)
                     (configValue env cwd "noproxy" s))) /\
    length (execLog s') <= length (execLog s) + 8.
Proof.
  rewrite getProxyFetchOptions_returns. unfold configValue.
  eexists _, _. split; [reflexivity|].
  rewrite readKeys_log by apply keysRead_NoDup. split; [reflexivity|].
  rewrite length_app, length_map.
  pose proof (length_filter (fun key => configCache s !! key = None)
                (keysRead (valueOf (readConfig env (detectYarn env cwd) cwd "https-proxy" s))
                          (valueOf (readConfig env (detectYarn env cwd) cwd "noproxy" s)))).
  pose proof (keysRead_length
                (valueOf (readConfig env (detectYarn env cwd) cwd "https-proxy" s))
                (valueOf (readConfig env (detectYarn env cwd) cwd "noproxy" s))).
  lia.
Qed.

(** ** Text the escaping leaves alone *)

Lemma replaceLineBreaks_single_line rep s :
  hasChar LF s = false -> replaceLineBreaks rep s = s.
Proof.
  induction s as [|c|c d s IHs IHd] using string_pair_ind; intros Hlf.
  - reflexivity.
  - cbn [hasChar] in Hlf. apply orb_false_iff in Hlf as [Hc _].
    cbn [replaceLineBreaks]. by rewrite Hc.
  - cbn [hasChar] in Hlf. apply orb_false_iff in Hlf as [Hc Hlf].
    pose proof Hlf as Hlf'. apply orb_false_iff in Hlf' as [Hd _].
    rewrite replaceLineBreaks_pair, Hc, Hd, andb_false_r.
    f_equal. apply IHd. cbn [hasChar]. exact Hlf.
Qed.

Lemma occurs_prefix pat s : occurs pat s = false -> String.prefix pat s = false.
Proof. destruct s; simpl; intros H; by apply orb_false_iff in H as [? _]. Qed.

Lemma replaceAllGo_absent pat rep s :
  occurs pat s = false -> replaceAllGo pat rep s 0 = s.
Proof.
  induction s as [|c s IH]; intros Hocc; [reflexivity|].
  rewrite occurs_cons in Hocc. apply orb_false_iff in Hocc as [Hp Hocc].
  cbn [replaceAllGo]. rewrite Hp. f_equal. by apply IH.
Qed.

(** X9. A text on one line that does not contain the placeholder goes
    through the escaping unchanged, alone or followed by the marker: such a
    certificate is pushed as it stands in the file. *)
Theorem escapeChunk_single_line (s : string) :
  hasChar LF s = false ->
  occurs newLinePlaceholder s = false ->
  escapeChunk [s] = s /\
  escapeChunk [s; endCertificate] = s +:+ endCertificate.
Proof.
  intros Hlf Hocc.
  assert (escapeChunk [s] = s) as Hone.
  { unfold escapeChunk, replaceAll, removePrefix. cbn [String.concat].
    rewrite replaceLineBreaks_single_line by exact Hlf.
    rewrite (occurs_prefix _ _ Hocc). by apply replaceAllGo_absent. }
  split; [exact Hone|]. by rewrite escapeChunk_block, Hone.
Qed.

Lemma escapeChunk_single_line_witness :
  escapeChunk ["MIIBAQAB"; endCertificate] = "MIIBAQAB" +:+ endCertificate.
Proof.
  destruct (escapeChunk_single_line "MIIBAQAB" eq_refl eq_refl) as [_ Hblock].
  exact Hblock.
Defined.

(** ** The ca field without a bundle *)

(** X10. When the key cafile is not configured, or the file it names cannot
    be read, the ca field comes from the ca value alone: a one-element list
    for a value that is not empty, and absent otherwise.  The failure of the
    read goes unnoticed. *)
Theorem ca_without_bundle (env : Env) (cwd : string) (s : State) :
  configValue env cwd "cafile" s = None \/
  (exists file, configValue env cwd "cafile" s = Some file /\
                readFileSync env file = Throw) ->
  exists r s',
    getProxyFetchOptions env cwd s = Returned r s' /\
    ca r = match configValue env cwd "ca" s with
           | Some v => if isEmpty v then None else Some [v]
           | None => None
           end.
Proof.
  intros Hcafile. rewrite getProxyFetchOptions_returns. unfold configValue in *.
  eexists _, _. split; [reflexivity|]. cbn [ca].
  assert (caAssembled env
            (valueOf (readConfig env (detectYarn env cwd) cwd "ca" s))
            (valueOf (readConfig env (detectYarn env cwd) cwd "cafile" s))
          = caFromConfig (valueOf (readConfig env (detectYarn env cwd) cwd "ca" s)))
    as ->.
  { unfold caAssembled.
    destruct Hcafile as [->|(file & -> & ->)]; by rewrite app_nil_r. }
  unfold caFromConfig.
  destruct (valueOf (readConfig env (detectYarn env cwd) cwd "ca" s)) as [[|c v]|];
    reflexivity.
Qed.

Lemma ca_without_bundle_witness :
  exists r s',
    getProxyFetchOptions missingBundleEnv "/work/app" initState = Returned r s' /\
    ca r = Some ["ROOT"].
Proof.
  apply (ca_without_bundle missingBundleEnv "/work/app" initState).
  right. exists "/etc/ssl/missing.pem". split; reflexivity.
Defined.

(** ** Sentinels do not reach the options *)

(** X11. In every state of a process the texts undefined and null, which
    the managers print for an unset key, reach neither the proxy nor the
    cert field, and the noProxy list is never one of these texts alone. *)
Theorem options_without_sentinels (env : Env) (cwd : string) (s : State) :
  reachable s ->
  exists r s',
    getProxyFetchOptions env cwd s = Returned r s' /\
    proxy r <> Some "undefined" /\ proxy r <> Some "null" /\
    cert r <> Some "undefined" /\ cert r <> Some "null" /\
    noProxy r <> ["undefined"] /\ noProxy r <> ["null"].
Proof.
  intros Hs. rewrite getProxyFetchOptions_returns.
  eexists _, _. split; [reflexivity|]. cbn [proxy cert noProxy].
  pose proof (fun key v =>
    readConfig_noSentinel_value env (detectYarn env cwd) cwd key s v
      (reachable_noSentinel s Hs)) as Hno.
  assert (forall key key' v,
            (if truthy (valueOf (readConfig env (detectYarn env cwd) cwd key s))
             then valueOf (readConfig env (detectYarn env cwd) cwd key s)
             else valueOf (readConfig env (detectYarn env cwd) cwd key' s)) = Some v ->
            v <> "undefined" /\ v <> "null") as Hor.
  { intros key key' v. destruct (truthy _); apply Hno. }
  repeat split.
  - intros H. by destruct (Hor _ _ _ H).
  - intros H. by destruct (Hor _ _ _ H).
  - intros H. by destruct (Hno _ _ H).
  - intros H. by destruct (Hno _ _ H).
  - destruct (if truthy _ then _ else _) as [v|] eqn:Hv; [|discriminate].
    intros H. apply (f_equal (String.concat ",")) in H.
    rewrite splitComma_join in H. simpl in H. by destruct (Hor _ _ _ Hv).
  - destruct (if truthy _ then _ else _) as [v|] eqn:Hv; [|discriminate].
    intros H. apply (f_equal (String.concat ",")) in H.
    rewrite splitComma_join in H. simpl in H. by destruct (Hor _ _ _ Hv).
Qed.

Lemma options_without_sentinels_witness :
  exists r s',
    getProxyFetchOptions npmProxyEnv "/work/app" initState = Returned r s' /\
    cert r <> Some "null".
Proof.
  destruct (options_without_sentinels npmProxyEnv "/work/app" initState reach_init)
    as (r & s' & Hrun & _ & _ & _ & Hcert & _).
  exists r, s'. split; [exact Hrun|exact Hcert].
Defined.

(** ** Escaping a text of several lines *)

(** A match of the placeholder cannot start in a text that does not begin
    with the placeholder and end in the placeholder that follows the text:
    no end of the placeholder is also a beginning of it. *)
Lemma placeholder_no_straddle t rest :
  t <> EmptyString ->
  String.prefix newLinePlaceholder t = false ->
  String.prefix newLinePlaceholder (t +:+ newLinePlaceholder +:+ rest) = false.
Proof.
  intros Hne Hhead. destruct t as [|c t]; [done|]. clear Hne.
  do 31 (destruct t as [|? t];
         [ clear Hhead; unfold newLinePlaceholder; cbn [String.append];
           repeat next_char | ]).
  rewrite prefix_app_long by (simpl; lia). exact Hhead.
Qed.

Lemma replaceLineBreaks_other rep c d s :
  isLineTerminator c = false ->
  replaceLineBreaks rep (String c (String d s)) =
    String c (replaceLineBreaks rep (String d s)).
Proof.
  intros Hc. apply orb_false_iff in Hc as [Hlf Hcr].
  by rewrite replaceLineBreaks_pair, Hlf, Hcr.
Qed.

Lemma replaceLineBreaks_line rep br l rest :
  br = newline \/ br = crlf ->
  hasLineTerminator l = false ->
  replaceLineBreaks rep (l +:+ br +:+ rest) =
    l +:+ rep +:+ replaceLineBreaks rep rest.
Proof.
  intros Hbr. induction l as [|c l IH]; intros Hlt.
  - by destruct Hbr as [-> | ->].
  - cbn [hasLineTerminator] in Hlt. apply orb_false_iff in Hlt as [Hc Hlt].
    assert (exists d s2, l +:+ br +:+ rest = String d s2) as (d & s2 & Hcons).
    { destruct l; [destruct Hbr as [-> | ->]|]; simpl; eauto. }
    change (String c l +:+ br +:+ rest) with (String c (l +:+ br +:+ rest)).
    rewrite Hcons, (replaceLineBreaks_other _ _ _ _ Hc), <- Hcons, IH by exact Hlt.
    reflexivity.
Qed.

Lemma noLineTerminator_noLF s : hasLineTerminator s = false -> hasChar LF s = false.
Proof.
  induction s as [|c s IH]; [reflexivity|]. cbn [hasLineTerminator hasChar].
  intros H. apply orb_false_iff in H as [Hc H]. apply orb_false_iff in Hc as [Hlf _].
  by rewrite Hlf, IH.
Qed.

Lemma replaceLineBreaks_lines rep br lines :
  br = newline \/ br = crlf ->
  Forall (fun l => hasLineTerminator l = false) lines ->
  replaceLineBreaks rep (String.concat br lines) = String.concat rep lines.
Proof.
  intros Hbr Hlines. induction Hlines as [|l lines Hl Hlines IH]; [reflexivity|].
  destruct lines as [|l2 lines].
  - by apply replaceLineBreaks_single_line, noLineTerminator_noLF.
  - rewrite !concat_more, replaceLineBreaks_line by assumption. by rewrite IH.
Qed.

Lemma replaceAllGo_skip pat rep x : forall rest,
  replaceAllGo pat rep (x +:+ rest) (String.length x) = replaceAllGo pat rep rest 0.
Proof.
  induction x as [|c x IH]; intros rest; [by destruct rest|]. apply IH.
Qed.

Lemma replaceAllGo_cons pat rep c s :
  replaceAllGo pat rep (String c s) 0 =
    if String.prefix pat (String c s)
    then rep +:+ replaceAllGo pat rep s (String.length pat - 1)
    else String c (replaceAllGo pat rep s 0).
Proof. reflexivity. Qed.

Lemma replaceAllGo_match a pat rep rest :
  replaceAllGo (String a pat) rep (String a pat +:+ rest) 0 =
    rep +:+ replaceAllGo (String a pat) rep rest 0.
Proof.
  change (String a pat +:+ rest) with (String a (pat +:+ rest)).
  rewrite replaceAllGo_cons.
  change (String a (pat +:+ rest)) with (String a pat +:+ rest).
  rewrite prefix_app_self.
  replace (String.length (String a pat) - 1) with (String.length pat)
    by (simpl; lia).
  by rewrite replaceAllGo_skip.
Qed.

Lemma replaceAll_line l rest :
  occurs newLinePlaceholder l = false ->
  replaceAllGo newLinePlaceholder backslashN (l +:+ newLinePlaceholder +:+ rest) 0 =
    l +:+ backslashN +:+ replaceAllGo newLinePlaceholder backslashN rest 0.
Proof.
  induction l as [|c l IH]; intros Hocc.
  - apply replaceAllGo_match.
  - rewrite occurs_cons in Hocc. apply orb_false_iff in Hocc as [Hp Hocc].
    pose proof (placeholder_no_straddle (String c l) rest ltac:(done) Hp) as Hno.
    change (String c l +:+ newLinePlaceholder +:+ rest)
      with (String c (l +:+ newLinePlaceholder +:+ rest)).
    rewrite replaceAllGo_cons.
    change (String c (l +:+ newLinePlaceholder +:+ rest))
      with (String c l +:+ newLinePlaceholder +:+ rest).
    rewrite Hno.
    change (String c l +:+ backslashN +:+
            replaceAllGo newLinePlaceholder backslashN rest 0)
      with (String c (l +:+ backslashN +:+
                      replaceAllGo newLinePlaceholder backslashN rest 0)).
    f_equal. by apply IH.
Qed.

Lemma replaceAll_lines lines :
  Forall (fun l => occurs newLinePlaceholder l = false) lines ->
  replaceAll newLinePlaceholder backslashN (String.concat newLinePlaceholder lines) =
    String.concat backslashN lines.
Proof.
  unfold replaceAll.
  intros Hlines. induction Hlines as [|l lines Hl Hlines IH]; [reflexivity|].
  destruct lines as [|l2 lines].
  - by apply replaceAllGo_absent.
  - rewrite !concat_more, replaceAll_line by assumption. by rewrite IH.
Qed.

Lemma first_line_not_placeholder l lines :
  l <> EmptyString -> occurs newLinePlaceholder l = false ->
  String.prefix newLinePlaceholder (String.concat newLinePlaceholder (l :: lines)) = false.
Proof.
  intros Hne Hocc. destruct lines as [|l2 lines].
  - by apply occurs_prefix.
  - rewrite concat_more.
    apply placeholder_no_straddle; [exact Hne|by apply occurs_prefix].
Qed.

Lemma dropChars_app_self x : forall rest,
  dropChars (String.length x) (x +:+ rest) = rest.
Proof. induction x as [|c x IH]; intros rest; [by destruct rest|]. apply IH. Qed.

(** X12. A text of several lines, the lines separated by LF or all by CR
    LF, with a first line that is not empty and no line holding a line
    terminator or the placeholder, is escaped to its lines joined by a
    backslash and the letter n.  One line break in front of the text is
    dropped, and a marker that follows the text stays behind it: this is
    the entry of a certificate that follows another in a bundle. *)
Theorem escapeChunk_lines (br l : string) (lines : list string) :
  br = newline \/ br = crlf ->
  l <> EmptyString ->
  Forall (fun x => hasLineTerminator x = false /\
                   occurs newLinePlaceholder x = false) (l :: lines) ->
  escapeChunk [String.concat br (l :: lines)] =
    String.concat backslashN (l :: lines) /\
  escapeChunk [br +:+ String.concat br (l :: lines)] =
    String.concat backslashN (l :: lines) /\
  escapeChunk [br +:+ String.concat br (l :: lines); endCertificate] =
    String.concat backslashN (l :: lines) +:+ endCertificate.
Proof.
  intros Hbr Hne Hok.
  assert (Hlt : Forall (fun x => hasLineTerminator x = false) (l :: lines))
    by (eapply Forall_impl; [exact Hok|]; by intros x [? _]).
  assert (Hocc : Forall (fun x => occurs newLinePlaceholder x = false) (l :: lines))
    by (eapply Forall_impl; [exact Hok|]; by intros x [_ ?]).
  assert (Hfirst : occurs newLinePlaceholder l = false) by (by inversion Hocc).
  assert (Hplain : escapeChunk [String.concat br (l :: lines)] =
                   String.concat backslashN (l :: lines)).
  { unfold escapeChunk, removePrefix. cbn [String.concat].
    change (match lines with [] => l | _ :: _ => l +:+ br +:+ String.concat br lines end)
      with (String.concat br (l :: lines)).
    rewrite replaceLineBreaks_lines by assumption.
    rewrite first_line_not_placeholder by assumption.
    by apply replaceAll_lines. }
  assert (Hbreak : escapeChunk [br +:+ String.concat br (l :: lines)] =
                   String.concat backslashN (l :: lines)).
  { unfold escapeChunk, removePrefix.
    change (String.concat EmptyString [br +:+ String.concat br (l :: lines)])
      with (String.concat br (EmptyString :: l :: lines)).
    rewrite replaceLineBreaks_lines by (assumption || by constructor).
    rewrite concat_more.
    change (EmptyString +:+ newLinePlaceholder +:+
            String.concat newLinePlaceholder (l :: lines))
      with (newLinePlaceholder +:+ String.concat newLinePlaceholder (l :: lines)).
    rewrite prefix_app_self, dropChars_app_self.
    by apply replaceAll_lines. }
  split; [exact Hplain|]. split; [exact Hbreak|].
  by rewrite escapeChunk_block, Hbreak.
Qed.

Lemma escapeChunk_lines_witness :
  escapeChunk [newline +:+ "-----BEGIN CERTIFICATE-----" +:+ newline +:+ "MIIB"
               +:+ newline; endCertificate] =
  "-----BEGIN CERTIFICATE-----" +:+ backslashN +:+ "MIIB" +:+ backslashN
  +:+ endCertificate.
Proof.
  destruct (escapeChunk_lines newline "-----BEGIN CERTIFICATE-----"
              ["MIIB"; EmptyString] (or_introl eq_refl) ltac:(discriminate)
              ltac:(repeat constructor))
    as (_ & _ & Hblock).
  exact Hblock.
Defined.
